(** * Pin allocation in ipfs-cluster: a shallow embedding

    The development follows the two Go files it verifies:

    - [api]         : [api/types.go], the [Pin], [PinSerial] and [Metric]
                      types with [PinSerial.ToPin], [Metric.Expired] and
                      [Metric.Discard];
    - [ipfscluster] : the allocation file of package [ipfscluster], with
                      [allocate], [getCurrentAllocations],
                      [getInformerMetrics], [allocationError] and
                      [obtainAllocations].

    Module [golang] holds the little of the Go runtime that the code relies
    on: 64-bit [int] arithmetic, slices that are [nil] or not, panics, the
    logger, and the fact that ranging over a map visits its keys in an
    unspecified order. *)

From stdpp Require Import gmap strings list fin_maps pretty.
From Stdlib Require Import ZArith Lia.

Open Scope Z_scope.

(** Peer identities ([peer.ID] is a Go string type) and content identifiers
    ([*cid.Cid]: [None] is the nil pointer, [Some s] a CID in its canonical
    string form). *)
Definition PeerID : Type := string.
Definition Cid : Type := option string.

(* ===================================================================== *)
(** * The Go runtime, as far as the code uses it *)
(* ===================================================================== *)

Module golang.

(** Go's [int] on a 64-bit platform: a [Z] in [-2^63, 2^63), with
    wrap-around on overflow. *)
Definition int_min : Z := - 2 ^ 63.
Definition int_max : Z := 2 ^ 63 - 1.

Definition int_wrap (z : Z) : Z := (z + 2 ^ 63) mod 2 ^ 64 - 2 ^ 63.
Definition int_add (a b : Z) : Z := int_wrap (a + b).
Definition int_sub (a b : Z) : Z := int_wrap (a - b).

Definition is_int (z : Z) : Prop := int_min ≤ z ≤ int_max.

(** [len(s)] *)
Definition len {A} (s : list A) : Z := Z.of_nat (length s).

(** An [error] built by [errors.New]; [Error()] gives its message back. *)
Inductive error : Type := errors_New (msg : string).

Definition Error (e : error) : string :=
  match e with errors_New msg => msg end.

#[global] Instance error_eq_dec : EqDecision error.
Proof. solve_decision. Defined.

(** A call that returns [(value, error)] where the value is only looked at
    when the error is [nil]. *)
Inductive result (A : Type) : Type :=
| Ok (a : A)
| Err (e : error).
Arguments Ok {A} a.
Arguments Err {A} e.

(** Instants of [time.Time], in nanoseconds since the Unix epoch.
    [t.After(u)] reports whether [t] is strictly later than [u]. *)
Definition Time : Type := Z.
Definition After (t u : Time) : bool := u <? t.

(** What the logger is handed: the level, the format string when the call is
    a [...f] one, and the arguments, before any rendering. *)
Inductive LogLevel : Type := DEBUG | ERROR.

Inductive LogArg : Type :=
| AInt (z : Z)
| AStr (s : string)
| ACid (c : Cid)
| APeers (l : list PeerID)
| AErr (e : error).

Record LogRecord : Type := mkLog {
  log_level : LogLevel;
  log_format : option string;
  log_args : list LogArg
}.

(** A computation in Go: the records it logged, and its value unless it
    panicked. *)
Definition Go (A : Type) : Type := (list LogRecord * option A)%type.

Definition logged {A} (g : Go A) : list LogRecord := fst g.
Definition returned {A} (g : Go A) : option A := snd g.

Definition go_ret {A} (a : A) : Go A := ([], Some a).
Definition panic {A} : Go A := ([], None).
Definition go_bind {A B} (g : Go A) (k : A → Go B) : Go B :=
  match g with
  | (l, Some a) => let '(l', r) := k a in (l ++ l', r)
  | (l, None) => (l, None)
  end.

#[global] Instance Go_ret : MRet Go := @go_ret.
#[global] Instance Go_bind : MBind Go := λ A B k g, go_bind g k.

Definition logger_Error (args : list LogArg) : Go unit :=
  ([mkLog ERROR None args], Some tt).
Definition logger_Errorf (format : string) (args : list LogArg) : Go unit :=
  ([mkLog ERROR (Some format) args], Some tt).
Definition logger_Debugf (format : string) (args : list LogArg) : Go unit :=
  ([mkLog DEBUG (Some format) args], Some tt).

(** [s[0:hi]] on a slice whose capacity equals its length: it panics when
    [hi] is out of range. *)
Definition slice_to {A} (s : list A) (hi : Z) : Go (list A) :=
  if (hi <? 0) || (len s <? hi) then panic
  else go_ret (take (Z.to_nat hi) s).

(** [for _, x := range s { body }] over a slice, for a body that only
    logs. *)
Fixpoint for_each {A} (s : list A) (body : A → Go unit) : Go unit :=
  match s with
  | [] => go_ret tt
  | x :: rest => body x ;; for_each rest body
  end.

(** [fmt.Sprintf("%d", z)] *)
Definition fmt_d (z : Z) : string := pretty z.

End golang.

Import golang.

(** Functions of the Go libraries that the code calls and whose results it
    only passes on. *)
Class Libs : Type := {
  (* time.Parse(time.RFC3339Nano, s); None is a parse error *)
  time_Parse : string → option Time;
  (* cid.Decode(s) *)
  cid_Decode : string → Cid * option error;
  (* peer.IDB58Decode(s) *)
  peer_IDB58Decode : string → PeerID * option error;
  (* p.Pretty() *)
  peer_Pretty : PeerID → string
}.

(* ===================================================================== *)
(** * api/types.go *)
(* ===================================================================== *)

Module api.

Section types.
Context {L : Libs}.

(** In the records below a list holds the elements of a Go slice, in
    order; a nil slice and an empty one both have no element. *)
Record Pin : Type := mkPin {
  Pin_Cid : Cid;
  Pin_Name : string;
  Pin_Allocations : list PeerID;
  Pin_ReplicationFactor : Z
}.

Record PinSerial : Type := mkPinSerial {
  PinSerial_Cid : string;
  PinSerial_Name : string;
  PinSerial_Allocations : list string;
  PinSerial_Everywhere : bool; (* legacy *)
  PinSerial_ReplicationFactor : Z
}.

Record Metric : Type := mkMetric {
  Metric_Name : string;
  Metric_Peer : PeerID;
  Metric_Value : string;
  Metric_Expire : string; (* RFC3339Nano *)
  Metric_Valid : bool
}.

(** [StringsToPeers]: decoding errors are logged and the decoder's value is
    kept. *)
Fixpoint StringsToPeers (strs : list string) : Go (list PeerID) :=
  match strs with
  | [] => go_ret []
  | p :: rest =>
      let '(id, err) := peer_IDB58Decode p in
      (match err with
       | Some e => logger_Error [AStr p; AErr e]
       | None => go_ret tt
       end) ;;
      peers ← StringsToPeers rest;
      go_ret (id :: peers)
  end.

(** [PinSerial.ToPin] *)
Definition ToPin (pins : PinSerial) : Go Pin :=
  let '(c, err) := cid_Decode (PinSerial_Cid pins) in
  (match err with
   | Some e => logger_Error [AStr (PinSerial_Cid pins); AErr e]
   | None => go_ret tt
   end) ;;
  (* legacy format management *)
  let rpl :=
    if (PinSerial_ReplicationFactor pins =? 0) && PinSerial_Everywhere pins
    then -1 else PinSerial_ReplicationFactor pins in
  allocs ← StringsToPeers (PinSerial_Allocations pins);
  go_ret {| Pin_Cid := c;
            Pin_Name := PinSerial_Name pins;
            Pin_Allocations := allocs;
            Pin_ReplicationFactor := rpl |}.

(** [Metric.Expired], with [now] the reading of [time.Now()]. *)
Definition Expired (now : Time) (m : Metric) : Go bool :=
  if decide (Metric_Expire m = "") then go_ret true
  else match time_Parse (Metric_Expire m) with
       | None => panic
       | Some exp => go_ret (After now exp)
       end.

(** [Metric.Discard]: [!m.Valid || m.Expired()], the right operand being
    evaluated only for a valid metric. *)
Definition Discard (now : Time) (m : Metric) : Go bool :=
  if negb (Metric_Valid m) then go_ret true else Expired now m.

End types.

End api.

(* ===================================================================== *)
(** * Package ipfscluster: allocation *)
(* ===================================================================== *)

Module ipfscluster.

Import api.

(** [for k := range m] visits the keys of a Go map in an order the language
    leaves unspecified: any enumeration of the keys, each once. *)
Class MapRange : Type := {
  range_keys : gmap PeerID Metric → list PeerID;
  range_keys_perm : ∀ m, range_keys m ≡ₚ (map_to_list m).*1
}.

(** The helper [logError] of the package is defined outside the files at
    hand; it is handed a message and gives back the error to return. *)
Class Helpers : Type := {
  logError : string → Go error
}.

(** The collaborators reached through the receiver [c *Cluster]. *)
Record State : Type := mkState {
  State_Get : Cid → Pin
}.

Record Cluster : Type := mkCluster {
  (* c.consensus.State() *)
  consensus_State : result State;
  (* c.consensus.Leader() *)
  consensus_Leader : result PeerID;
  (* c.informer.Name() *)
  informer_Name : string;
  (* c.rpcClient.Call(dest, svcName, svcMethod, arg, &metrics) *)
  rpcClient_Call : PeerID → string → string → string → result (list Metric);
  (* c.allocator.Allocate(hash, current, candidates) *)
  allocator_Allocate :
    Cid → gmap PeerID Metric → gmap PeerID Metric → result (list PeerID)
}.

(** Modelled from the spec: [containsPeer], defined outside the files at
    hand, used for the tests "m.Peer ∈ blacklist" and "m.Peer ∈ current". *)
Definition containsPeer (list : list PeerID) (peer : PeerID) : bool :=
  bool_decide (peer ∈ list).

(** Modelled from the spec: [minInt], defined outside the files at hand,
    the "min(want, |ranked|)" of the expand branch. *)
Definition minInt (x y : Z) : Z := Z.min x y.

Section allocate.
Context {L : Libs} {R : MapRange} {H : Helpers}.

(** [getCurrentAllocations] *)
Definition getCurrentAllocations (c : Cluster) (h : Cid) : list PeerID :=
  match consensus_State c with
  | Err _ =>
      (* no state we assume it is empty. *)
      []
  | Ok st => Pin_Allocations (State_Get st h)
  end.

(** [getInformerMetrics] *)
Definition getInformerMetrics (c : Cluster) : result (list Metric) :=
  let metricName := informer_Name c in
  match consensus_Leader c with
  | Err _ => Err (errors_New "cannot determine leading Monitor")
  | Ok l =>
      match rpcClient_Call c l "Cluster" "PeerMonitorLastMetrics" metricName with
      | Err err => Err err
      | Ok metrics => Ok metrics
      end
  end.

(** [allocationError] *)
Definition allocationError (hash : Cid) (needed wanted : Z)
    (candidatesValid : list PeerID) : Go error :=
  logger_Errorf "Not enough candidates to allocate %s:" [ACid hash] ;;
  logger_Errorf "  Needed: %d" [AInt needed] ;;
  logger_Errorf "  Wanted: %d" [AInt wanted] ;;
  logger_Errorf "  Valid candidates: %d:" [AInt (len candidatesValid)] ;;
  for_each candidatesValid
    (λ c, logger_Errorf "    - %s" [AStr (peer_Pretty c)]) ;;
  let errorMsg := "not enough peers to allocate CID. " in
  let errorMsg := errorMsg +:+ ("Needed at least: " +:+ fmt_d needed +:+ ". ") in
  let errorMsg := errorMsg +:+ ("Wanted at most: " +:+ fmt_d wanted +:+ ". ") in
  let errorMsg :=
    errorMsg +:+ ("Valid candidates: " +:+ fmt_d (len candidatesValid) +:+ ". ") in
  let errorMsg := errorMsg +:+ "See logs for more info." in
  go_ret (errors_New errorMsg).

(** [obtainAllocations]. The result pairs the returned slice ([None] is
    [nil]) with the returned error ([None] is [nil]). *)
Definition obtainAllocations (c : Cluster) (hash : Cid) (rplMin rplMax : Z)
    (currentValidMetrics candidatesMetrics : gmap PeerID Metric)
    : Go (option (list PeerID) * option error) :=
  (* The list of peers in current *)
  let validAllocations := range_keys currentValidMetrics in
  let nCurrentValid := len validAllocations in
  let nCandidatesValid := Z.of_nat (size candidatesMetrics) in
  let needed := int_sub rplMin nCurrentValid in (* The minimum we need *)
  let wanted := int_sub rplMax nCurrentValid in (* The maximum we want *)
  logger_Debugf "obtainAllocations: current valid: %d" [AInt nCurrentValid] ;;
  logger_Debugf "obtainAllocations: candidates valid: %d" [AInt nCandidatesValid] ;;
  logger_Debugf "obtainAllocations: Needed: %d" [AInt needed] ;;
  logger_Debugf "obtainAllocations: Wanted: %d" [AInt wanted] ;;
  if wanted <=? 0 then
    s ← slice_to validAllocations (int_add (len validAllocations) wanted);
    go_ret (Some s, None)
  else if needed <=? 0 then
    go_ret (None, None)
  else if nCandidatesValid <? needed then
    let candidatesValid := range_keys candidatesMetrics in
    e ← allocationError hash needed wanted candidatesValid;
    go_ret (None, Some e)
  else
    match allocator_Allocate c hash currentValidMetrics candidatesMetrics with
    | Err err =>
        e ← logError (Error err);
        go_ret (None, Some e)
    | Ok finalAllocs =>
        logger_Debugf "obtainAllocations: allocate(): %s" [APeers finalAllocs] ;;
        if len finalAllocs <? needed then
          e ← allocationError hash needed wanted finalAllocs;
          go_ret (None, Some e)
        else
          let allocationsToUse := minInt wanted (len finalAllocs) in
          s ← slice_to finalAllocs allocationsToUse;
          go_ret (Some (validAllocations ++ s), None)
    end.

(** The loop of [allocate] that divides the metrics between current and
    candidates; [now i] is the reading of [time.Now()] while the metric at
    index [i] is examined. *)
Fixpoint divideMetrics (now : nat → Time) (i : nat) (metrics : list Metric)
    (blacklist currentAllocs : list PeerID)
    (currentMetrics candidatesMetrics : gmap PeerID Metric)
    : Go (gmap PeerID Metric * gmap PeerID Metric) :=
  match metrics with
  | [] => go_ret (currentMetrics, candidatesMetrics)
  | m :: rest =>
      d ← Discard (now i) m;
      if d || containsPeer blacklist (Metric_Peer m) then
        divideMetrics now (S i) rest blacklist currentAllocs
          currentMetrics candidatesMetrics
      else if containsPeer currentAllocs (Metric_Peer m) then
        divideMetrics now (S i) rest blacklist currentAllocs
          (<[Metric_Peer m := m]> currentMetrics) candidatesMetrics
      else
        divideMetrics now (S i) rest blacklist currentAllocs
          currentMetrics (<[Metric_Peer m := m]> candidatesMetrics)
  end.

(** [allocate] *)
Definition allocate (c : Cluster) (now : nat → Time) (hash : Cid)
    (rplMin rplMax : Z) (blacklist : list PeerID)
    : Go (option (list PeerID) * option error) :=
  (* Figure out who is holding the CID *)
  let currentAllocs := getCurrentAllocations c hash in
  match getInformerMetrics c with
  | Err err => go_ret (None, Some err)
  | Ok metrics =>
      '(currentMetrics, candidatesMetrics) ←
        divideMetrics now 0 metrics blacklist currentAllocs ∅ ∅;
      obtainAllocations c hash rplMin rplMax currentMetrics candidatesMetrics
  end.

End allocate.

End ipfscluster.

(* ===================================================================== *)
(** * Notions used to state the properties *)
(* ===================================================================== *)

Module notions.

Import api ipfscluster.

Section notions.
Context {L : Libs} {H : Helpers}.

(** The two maps that [allocate] builds from the fetched metrics before it
    calls [obtainAllocations]: current-valid and candidate-valid. *)
Definition partition (c : Cluster) (now : nat → Time) (hash : Cid)
    (blacklist : list PeerID) (metrics : list Metric)
    : option (gmap PeerID Metric * gmap PeerID Metric) :=
  returned (divideMetrics now 0 metrics blacklist
              (getCurrentAllocations c hash) ∅ ∅).

(** The message of the error built by [allocationError], as a function of
    the three numbers it prints. *)
Definition not_enough_peers (needed wanted nValid : Z) : string :=
  (((("not enough peers to allocate CID. "
      +:+ ("Needed at least: " +:+ fmt_d needed +:+ ". "))
     +:+ ("Wanted at most: " +:+ fmt_d wanted +:+ ". "))
    +:+ ("Valid candidates: " +:+ fmt_d nValid +:+ ". "))
   +:+ "See logs for more info.").

(** What a caller can tell of a result without looking at the order of the
    peers: whether the list is nil and how long it is, and the error. *)
Definition outcome (r : option (list PeerID) * option error)
    : option nat * option error :=
  (length <$> r.1, r.2).

(** Two calls in a row with the same arguments. The cluster value [c] is
    not written by [allocate], so the second call reads the same state and
    the same metrics; each call reads the clock afresh ([now1] in the first
    call, [now2] in the second), and [R1] and [R2] are the map iteration
    orders met by the first and by the second call. *)
Definition allocate_twice (R1 R2 : MapRange) (c : Cluster)
    (now1 now2 : nat → Time)
    (hash : Cid) (rplMin rplMax : Z) (blacklist : list PeerID)
    : Go ((option (list PeerID) * option error) *
          (option (list PeerID) * option error)) :=
  first ← allocate (R := R1) c now1 hash rplMin rplMax blacklist;
  second ← allocate (R := R2) c now2 hash rplMin rplMax blacklist;
  go_ret (first, second).

(** No metric passes from usable to discarded (or panics in one call only)
    between two calls: [Discard] answers alike at the readings of the clock
    taken in the first and in the second call. *)
Definition same_verdicts (now1 now2 : nat → Time) (metrics : list Metric)
    : Prop :=
  ∀ i m, metrics !! i = Some m →
         returned (Discard (now1 i) m) = returned (Discard (now2 i) m).

(** Expired in the words of the specification: no expiry is set, or the
    current time is at or after the expiry. [Expired] itself is strict, so
    the two differ at the instant of expiry. *)
Definition expired_by_the_spec (now : Time) (m : Metric) : Prop :=
  Metric_Expire m = "" ∨
  ∃ exp, time_Parse (Metric_Expire m) = Some exp ∧ exp ≤ now.

(** Peer [p] has, among the fetched metrics, one that [Discard] found usable
    (it answered false) when the loop examined it. *)
Definition has_usable_metric (now : nat → Time) (metrics : list Metric)
    (p : PeerID) : Prop :=
  ∃ i m, metrics !! i = Some m ∧ Metric_Peer m = p ∧
         returned (Discard (now i) m) = Some false.

(** Peer [p] has, among the fetched metrics, one that [Discard] found
    discarded (it answered true: the metric is invalid, has no expiry, or
    the clock is strictly past its expiry) when the loop examined it. *)
Definition has_discarded_metric (now : nat → Time) (metrics : list Metric)
    (p : PeerID) : Prop :=
  ∃ i m, metrics !! i = Some m ∧ Metric_Peer m = p ∧
         returned (Discard (now i) m) = Some true.

(** The contract of [allocate]: "it should only be used with valid
    replicationFactors (rplMin and rplMax which are positive and
    rplMin <= rplMax)", both being Go ints. *)
Definition valid_factors (rplMin rplMax : Z) : Prop :=
  0 < rplMin ∧ rplMin ≤ rplMax ∧ rplMax ≤ int_max.

(** The monitor reports one last metric per peer. *)
Definition one_metric_per_peer (metrics : list Metric) : Prop :=
  NoDup (Metric_Peer <$> metrics).

(** The allocator only ranks peers found in its candidate input. *)
Definition ranks_candidates_only (c : Cluster) : Prop :=
  ∀ hash current candidates ranked,
    allocator_Allocate c hash current candidates = Ok ranked →
    ∀ p, p ∈ ranked → is_Some (candidates !! p).

End notions.

End notions.

(* ===================================================================== *)
(** * Concrete collaborators and the scenarios of the specification *)
(* ===================================================================== *)

Module fixtures.

Import api ipfscluster.

(** 2017-10-01T12:00:00Z and one hour later. *)
Definition noon : Time := 1506859200000000000.
Definition one_pm : Time := noon + 3600 * 10 ^ 9.

Definition libs : Libs := {|
  time_Parse := λ s,
    if decide (s = "2017-10-01T12:00:00Z") then Some noon
    else if decide (s = "2017-10-01T13:00:00Z") then Some one_pm
    else None;
  cid_Decode := λ s,
    if decide (s = "") then (None, Some (errors_New "cid too short"))
    else (Some s, None);
  peer_IDB58Decode := λ s, (s, None);
  peer_Pretty := λ p, p
|}.

(** Two iteration orders for maps: the order of [map_to_list], and its
    reverse. *)
Program Definition key_order : MapRange :=
  {| range_keys := λ m, (map_to_list m).*1 |}.
Next Obligation. reflexivity. Qed.

Program Definition key_order_rev : MapRange :=
  {| range_keys := λ m, reverse (map_to_list m).*1 |}.
Next Obligation. intros m. apply reverse_Permutation. Qed.

Definition helpers : Helpers := {|
  logError := λ msg, logger_Error [AStr msg] ;; go_ret (errors_New msg)
|}.

(** The CID of the scenarios. *)
Definition QmC : Cid := Some "QmC".

(** A usable metric (valid, expiring at one pm), an expired one (expiring
    at noon) and an invalid one. *)
Definition usable (p : PeerID) : Metric :=
  mkMetric "freespace" p "100" "2017-10-01T13:00:00Z" true.
Definition stale (p : PeerID) : Metric :=
  mkMetric "freespace" p "100" "2017-10-01T12:00:00Z" true.
Definition invalid (p : PeerID) : Metric :=
  mkMetric "freespace" p "100" "2017-10-01T13:00:00Z" false.

(** The clock of the scenarios: half past twelve throughout the call. *)
Definition half_past : nat → Time := λ _, noon + 1800 * 10 ^ 9.

(** Later clocks: a quarter to one, and just past one pm. *)
Definition quarter_to : nat → Time := λ _, noon + 2700 * 10 ^ 9.
Definition past_one : nat → Time := λ _, one_pm + 1.

(** The clock that stands at noon. *)
Definition at_noon : nat → Time := λ _, noon.

(** A cluster whose state holds [current] for every CID, whose monitor
    answers [metrics] and whose allocator answers [ranked]. *)
Definition cluster (current : list PeerID) (metrics : list Metric)
    (ranked : list PeerID) : Cluster := {|
  consensus_State := Ok (mkState (λ h, mkPin h "" current 0));
  consensus_Leader := Ok "P1";
  informer_Name := "freespace";
  rpcClient_Call := λ _ _ _ _, Ok metrics;
  allocator_Allocate := λ _ _ _, Ok ranked
|}.

(** A cluster whose allocator ranks the candidates it is given by a fixed
    order of preference. *)
Definition by_preference (preference : list PeerID)
    (candidates : gmap PeerID Metric) : list PeerID :=
  filter (λ p, is_Some (candidates !! p)) preference.

Definition choosy_cluster (current : list PeerID) (metrics : list Metric)
    (preference : list PeerID) : Cluster := {|
  consensus_State := Ok (mkState (λ h, mkPin h "" current 0));
  consensus_Leader := Ok "P1";
  informer_Name := "freespace";
  rpcClient_Call := λ _ _ _ _, Ok metrics;
  allocator_Allocate := λ _ _ candidates, Ok (by_preference preference candidates)
|}.

(** The same cluster when no leader is known. *)
Definition leaderless (current : list PeerID) (metrics : list Metric)
    (ranked : list PeerID) : Cluster := {|
  consensus_State := Ok (mkState (λ h, mkPin h "" current 0));
  consensus_Leader := Err (errors_New "no leader");
  informer_Name := "freespace";
  rpcClient_Call := λ _ _ _ _, Ok metrics;
  allocator_Allocate := λ _ _ _, Ok ranked
|}.

Definition run (c : Cluster) (hash : Cid) (rplMin rplMax : Z)
    (blacklist : list PeerID) : Go (option (list PeerID) * option error) :=
  allocate (L := libs) (R := key_order) (H := helpers)
    c half_past hash rplMin rplMax blacklist.

End fixtures.

(* ===================================================================== *)
(** * More of the Go runtime: durations, and ranging over any map *)
(* ===================================================================== *)

Module gotime.

(** [time.Duration]: an int64 count of nanoseconds. *)
Definition Duration : Type := Z.
Definition Second : Duration := 10 ^ 9.

(** The product of two int64 values, with wrap-around. *)
Definition int_mul (a b : Z) : Z := int_wrap (a * b).

(** [t.Add(d)] *)
Definition Add (t : Time) (d : Duration) : Time := t + d.

(** [t.Sub(u)]: the duration [t - u], or the largest (smallest) duration
    when the difference does not fit one. *)
Definition Sub (t u : Time) : Duration :=
  if decide (int_min ≤ t - u ≤ int_max) then t - u
  else if t <? u then int_min else int_max.

End gotime.

Import gotime.

(** [for k, v := range m] over any map: some enumeration of its entries,
    each once. *)
Class RangeOrder : Type := {
  range_entries : ∀ {K V : Type} `{Countable K}, gmap K V → list (K * V);
  range_entries_perm :
    ∀ {K V : Type} `{Countable K} (m : gmap K V),
      range_entries m ≡ₚ map_to_list m
}.

(** Encoders and formatters of the Go libraries, next to the decoders of
    [Libs]. *)
Class Codecs : Type := {
  (* peer.IDB58Encode(p) *)
  peer_IDB58Encode : PeerID → string;
  (* c.String(), for a non-nil c *)
  cid_String : Cid → string;
  (* t.UTC().Format(time.RFC3339Nano) *)
  time_Format_RFC3339Nano : Time → string;
  (* t.UTC().Format(time.RFC3339) *)
  time_Format_RFC3339 : Time → string;
  (* time.Parse(time.RFC3339, s) *)
  time_Parse_RFC3339 : string → Time * option error
}.

(* ===================================================================== *)
(** * api/types.go: statuses *)
(* ===================================================================== *)

Module status.

(** [type TrackerStatus int] and its values, numbered by [iota]. *)
Definition TrackerStatus : Type := Z.

Definition TrackerStatusBug : TrackerStatus := 0.
Definition TrackerStatusClusterError : TrackerStatus := 1.
Definition TrackerStatusPinError : TrackerStatus := 2.
Definition TrackerStatusUnpinError : TrackerStatus := 3.
Definition TrackerStatusPinned : TrackerStatus := 4.
Definition TrackerStatusPinning : TrackerStatus := 5.
Definition TrackerStatusUnpinning : TrackerStatus := 6.
Definition TrackerStatusUnpinned : TrackerStatus := 7.
Definition TrackerStatusRemote : TrackerStatus := 8.

Definition trackerStatusString : gmap TrackerStatus string :=
  list_to_map [
    (TrackerStatusBug, "bug");
    (TrackerStatusClusterError, "cluster_error");
    (TrackerStatusPinError, "pin_error");
    (TrackerStatusUnpinError, "unpin_error");
    (TrackerStatusPinned, "pinned");
    (TrackerStatusPinning, "pinning");
    (TrackerStatusUnpinning, "unpinning");
    (TrackerStatusUnpinned, "unpinned");
    (TrackerStatusRemote, "remote") ].

(** [TrackerStatus.String]: a missing key reads as the empty string. *)
Definition TrackerStatus_String (st : TrackerStatus) : string :=
  default "" (trackerStatusString !! st).

(** The loop of [TrackerStatusFromString] over the entries in the order they
    are visited. *)
Fixpoint TrackerStatusFromString_loop (entries : list (TrackerStatus * string))
    (str : string) : TrackerStatus :=
  match entries with
  | [] => TrackerStatusBug
  | (k, v) :: rest =>
      if decide (v = str) then k else TrackerStatusFromString_loop rest str
  end.

(** [TrackerStatusFromString] *)
Definition TrackerStatusFromString `{RangeOrder} (str : string)
    : TrackerStatus :=
  TrackerStatusFromString_loop (range_entries trackerStatusString) str.

(** [type IPFSPinStatus int] and its values. *)
Definition IPFSPinStatus : Type := Z.

Definition IPFSPinStatusBug : IPFSPinStatus := 0.
Definition IPFSPinStatusError : IPFSPinStatus := 1.
Definition IPFSPinStatusDirect : IPFSPinStatus := 2.
Definition IPFSPinStatusRecursive : IPFSPinStatus := 3.
Definition IPFSPinStatusIndirect : IPFSPinStatus := 4.
Definition IPFSPinStatusUnpinned : IPFSPinStatus := 5.

(** [IPFSPinStatusFromString] *)
Definition IPFSPinStatusFromString (t : string) : IPFSPinStatus :=
  if decide (t = "indirect") then IPFSPinStatusIndirect
  else if decide (t = "direct") then IPFSPinStatusDirect
  else if decide (t = "recursive") then IPFSPinStatusRecursive
  else IPFSPinStatusBug.

(** [IPFSPinStatus.IsPinned] *)
Definition IsPinned (ips : IPFSPinStatus) : bool :=
  bool_decide (ips = IPFSPinStatusDirect)
  || bool_decide (ips = IPFSPinStatusRecursive).

End status.

(* ===================================================================== *)
(** * api/types.go: conversions to and from the serializable types *)
(* ===================================================================== *)

Module convert.

Import api status.

Section convert.
Context {L : Libs} {E : Codecs} {O : RangeOrder}.

(** [PeersToStrings]: an empty peer is left as the empty string. *)
Definition PeersToStrings (peers : list PeerID) : list string :=
  (λ p, if decide (p = "") then "" else peer_IDB58Encode p) <$> peers.

(** [PinCid] *)
Definition PinCid (c : Cid) : Pin :=
  {| Pin_Cid := c; Pin_Name := ""; Pin_Allocations := [];
     Pin_ReplicationFactor := 0 |}.

(** [Pin.ToSerial] *)
Definition Pin_ToSerial (pin : Pin) : PinSerial :=
  let c := match Pin_Cid pin with
           | Some _ => cid_String (Pin_Cid pin)
           | None => ""
           end in
  let n := Pin_Name pin in
  let allocs := PeersToStrings (Pin_Allocations pin) in
  let rpl := Pin_ReplicationFactor pin in
  {| PinSerial_Cid := c;
     PinSerial_Name := n;
     PinSerial_Allocations := allocs;
     PinSerial_Everywhere := false;
     PinSerial_ReplicationFactor := rpl |}.

Record PinInfo : Type := mkPinInfo {
  PinInfo_Cid : Cid;
  PinInfo_Peer : PeerID;
  PinInfo_Status : TrackerStatus;
  PinInfo_TS : Time;
  PinInfo_Error : string
}.

Record PinInfoSerial : Type := mkPinInfoSerial {
  PinInfoSerial_Cid : string;
  PinInfoSerial_Peer : string;
  PinInfoSerial_Status : string;
  PinInfoSerial_TS : string;
  PinInfoSerial_Error : string
}.

(** [PinInfo.ToSerial] *)
Definition PinInfo_ToSerial (pi : PinInfo) : PinInfoSerial :=
  let c := match PinInfo_Cid pi with
           | Some _ => cid_String (PinInfo_Cid pi)
           | None => ""
           end in
  let p := if decide (PinInfo_Peer pi = "") then ""
           else peer_IDB58Encode (PinInfo_Peer pi) in
  {| PinInfoSerial_Cid := c;
     PinInfoSerial_Peer := p;
     PinInfoSerial_Status := TrackerStatus_String (PinInfo_Status pi);
     PinInfoSerial_TS := time_Format_RFC3339 (PinInfo_TS pi);
     PinInfoSerial_Error := PinInfo_Error pi |}.

(** Log a decoding error, if there is one. *)
Definition log_if_err (what : string) (err : option error) : Go unit :=
  match err with
  | Some e => logger_Error [AStr what; AErr e]
  | None => go_ret tt
  end.

(** [PinInfoSerial.ToPinInfo] *)
Definition ToPinInfo (pis : PinInfoSerial) : Go PinInfo :=
  let '(c, err) := cid_Decode (PinInfoSerial_Cid pis) in
  log_if_err (PinInfoSerial_Cid pis) err ;;
  let '(p, err) := peer_IDB58Decode (PinInfoSerial_Peer pis) in
  log_if_err (PinInfoSerial_Peer pis) err ;;
  let '(ts, err) := time_Parse_RFC3339 (PinInfoSerial_TS pis) in
  log_if_err (PinInfoSerial_TS pis) err ;;
  go_ret {| PinInfo_Cid := c;
            PinInfo_Peer := p;
            PinInfo_Status := TrackerStatusFromString (PinInfoSerial_Status pis);
            PinInfo_TS := ts;
            PinInfo_Error := PinInfoSerial_Error pis |}.

(** The map of a [GlobalPinInfo] holds the entries of the Go map; a nil
    map and an empty one both have no entry. *)
Record GlobalPinInfo : Type := mkGlobalPinInfo {
  GlobalPinInfo_Cid : Cid;
  GlobalPinInfo_PeerMap : gmap PeerID PinInfo
}.

Record GlobalPinInfoSerial : Type := mkGlobalPinInfoSerial {
  GlobalPinInfoSerial_Cid : string;
  GlobalPinInfoSerial_PeerMap : gmap string PinInfoSerial
}.

(** The loop of [GlobalPinInfo.ToSerial] over the entries in the order they
    are visited: [s.PeerMap[peer.IDB58Encode(k)] = v.ToSerial()]. *)
Fixpoint GlobalPinInfo_ToSerial_loop (entries : list (PeerID * PinInfo))
    (peerMap : gmap string PinInfoSerial) : gmap string PinInfoSerial :=
  match entries with
  | [] => peerMap
  | (k, v) :: rest =>
      GlobalPinInfo_ToSerial_loop rest
        (<[peer_IDB58Encode k := PinInfo_ToSerial v]> peerMap)
  end.

(** [GlobalPinInfo.ToSerial] *)
Definition GlobalPinInfo_ToSerial (gpi : GlobalPinInfo) : GlobalPinInfoSerial :=
  let c := match GlobalPinInfo_Cid gpi with
           | Some _ => cid_String (GlobalPinInfo_Cid gpi)
           | None => ""
           end in
  {| GlobalPinInfoSerial_Cid := c;
     GlobalPinInfoSerial_PeerMap :=
       GlobalPinInfo_ToSerial_loop
         (range_entries (GlobalPinInfo_PeerMap gpi)) ∅ |}.

(** The loop of [GlobalPinInfoSerial.ToGlobalPinInfo]. *)
Fixpoint ToGlobalPinInfo_loop (entries : list (string * PinInfoSerial))
    (peerMap : gmap PeerID PinInfo) : Go (gmap PeerID PinInfo) :=
  match entries with
  | [] => go_ret peerMap
  | (k, v) :: rest =>
      let '(p, err) := peer_IDB58Decode k in
      log_if_err k err ;;
      pi ← ToPinInfo v;
      ToGlobalPinInfo_loop rest (<[p := pi]> peerMap)
  end.

(** [GlobalPinInfoSerial.ToGlobalPinInfo] *)
Definition ToGlobalPinInfo (gpis : GlobalPinInfoSerial) : Go GlobalPinInfo :=
  let '(c, err) := cid_Decode (GlobalPinInfoSerial_Cid gpis) in
  log_if_err (GlobalPinInfoSerial_Cid gpis) err ;;
  peerMap ← ToGlobalPinInfo_loop
              (range_entries (GlobalPinInfoSerial_PeerMap gpis)) ∅;
  go_ret {| GlobalPinInfo_Cid := c; GlobalPinInfo_PeerMap := peerMap |}.

(** [Metric.SetTTLDuration], with [now] the reading of [time.Now()]; the
    metric is updated in place. *)
Definition SetTTLDuration (now : Time) (m : Metric) (d : Duration) : Metric :=
  let exp := Add now d in
  {| Metric_Name := Metric_Name m;
     Metric_Peer := Metric_Peer m;
     Metric_Value := Metric_Value m;
     Metric_Expire := time_Format_RFC3339Nano exp;
     Metric_Valid := Metric_Valid m |}.

(** [Metric.SetTTL] *)
Definition SetTTL (now : Time) (m : Metric) (seconds : Z) : Metric :=
  let d := int_mul seconds Second in
  SetTTLDuration now m d.

(** [Metric.GetTTL] *)
Definition GetTTL (now : Time) (m : Metric) : Go Duration :=
  if decide (Metric_Expire m = "") then go_ret 0
  else match time_Parse (Metric_Expire m) with
       | None => panic
       | Some exp => go_ret (Sub exp now)
       end.

End convert.

End convert.

(* ===================================================================== *)
(** * More notions and concrete collaborators *)
(* ===================================================================== *)

Module samples.

Import api ipfscluster status convert fixtures.

(** The cluster [c] with another allocator. *)
Definition with_allocator (c : Cluster)
    (policy : Cid → gmap PeerID Metric → gmap PeerID Metric →
              result (list PeerID)) : Cluster := {|
  consensus_State := consensus_State c;
  consensus_Leader := consensus_Leader c;
  informer_Name := informer_Name c;
  rpcClient_Call := rpcClient_Call c;
  allocator_Allocate := policy
|}.

(** The cluster [c] when the state cannot be read. *)
Definition without_state (c : Cluster) (err : error) : Cluster := {|
  consensus_State := Err err;
  consensus_Leader := consensus_Leader c;
  informer_Name := informer_Name c;
  rpcClient_Call := rpcClient_Call c;
  allocator_Allocate := allocator_Allocate c
|}.

(** The cluster [c] when the call to the monitor fails. *)
Definition with_failing_monitor (c : Cluster) (err : error) : Cluster := {|
  consensus_State := consensus_State c;
  consensus_Leader := consensus_Leader c;
  informer_Name := informer_Name c;
  rpcClient_Call := λ _ _ _ _, Err err;
  allocator_Allocate := allocator_Allocate c
|}.

(** Two orders for ranging over maps. *)
Program Definition entry_order : RangeOrder :=
  {| range_entries := λ K V _ _ m, map_to_list m |}.
Next Obligation. reflexivity. Qed.

Program Definition entry_order_rev : RangeOrder :=
  {| range_entries := λ K V _ _ m, reverse (map_to_list m) |}.
Next Obligation. intros. apply reverse_Permutation. Qed.

(** Encoders that agree with the decoders of [fixtures.libs]. *)
Definition codecs : Codecs := {|
  peer_IDB58Encode := λ p, p;
  cid_String := λ c, default "" c;
  time_Format_RFC3339Nano := λ t,
    if decide (t = noon) then "2017-10-01T12:00:00Z"
    else if decide (t = one_pm) then "2017-10-01T13:00:00Z"
    else "0001-01-01T00:00:00Z";
  time_Format_RFC3339 := λ t,
    if decide (t = noon) then "2017-10-01T12:00:00Z"
    else if decide (t = one_pm) then "2017-10-01T13:00:00Z"
    else "0001-01-01T00:00:00Z";
  time_Parse_RFC3339 := λ s,
    if decide (s = "2017-10-01T12:00:00Z") then (noon, None)
    else if decide (s = "2017-10-01T13:00:00Z") then (one_pm, None)
    else (0, Some (errors_New "cannot parse"))
|}.

(** Two cluster-wide pin infos. *)
Definition sample_gpi : GlobalPinInfo :=
  mkGlobalPinInfo QmC
    {["P1" := mkPinInfo QmC "P1" TrackerStatusPinned noon ""]}.

Definition sample_gpi2 : GlobalPinInfo :=
  mkGlobalPinInfo QmC
    (list_to_map
       [("P1", mkPinInfo QmC "P1" TrackerStatusPinned noon "");
        ("P2", mkPinInfo QmC "P2" TrackerStatusPinError noon "disk full")]).

(** The clusters and metrics of scenarios S1 to S4, and the maps that
    [allocate] builds in S2, S3 and S4. *)
Definition five_usable : list Metric :=
  usable <$> ["P1"; "P2"; "P3"; "P4"; "P5"].
Definition S1 : Cluster := cluster [] five_usable ["P3"; "P1"; "P5"; "P2"; "P4"].
Definition S2_metrics : list Metric :=
  [usable "P1"; stale "P2"; usable "P3"; usable "P4"; usable "P5"].
Definition S2 : Cluster := cluster ["P1"; "P2"] S2_metrics ["P4"; "P3"; "P5"].
Definition S3_metrics : list Metric := usable <$> ["P1"; "P2"; "P3"].
Definition S3 : Cluster := cluster ["P1"; "P2"; "P3"] S3_metrics [].
Definition S4_metrics : list Metric := usable <$> ["P1"; "P2"; "P3"; "P4"].
Definition S4 : Cluster := cluster ["P1"; "P2"; "P3"; "P4"] S4_metrics [].

Definition S2_current : gmap PeerID Metric := {["P1" := usable "P1"]}.
Definition S2_candidates : gmap PeerID Metric :=
  list_to_map [("P3", usable "P3"); ("P4", usable "P4"); ("P5", usable "P5")].
Definition S3_current : gmap PeerID Metric :=
  list_to_map [("P1", usable "P1"); ("P2", usable "P2"); ("P3", usable "P3")].
Definition S4_current : gmap PeerID Metric :=
  list_to_map [("P1", usable "P1"); ("P2", usable "P2"); ("P3", usable "P3");
               ("P4", usable "P4")].

End samples.

(* ===================================================================== *)
(** * api/types.go: identities and multiaddresses *)
(* ===================================================================== *)

(** A [ma.Multiaddr] value: nil, or an address given by its bytes. *)
Definition Multiaddr : Type := option string.

(** The multiaddress library. *)
Class MultiaddrLib : Type := {
  (* a.String(), for a non-nil a *)
  ma_String : Multiaddr → string;
  (* ma.NewMultiaddr(s) *)
  ma_NewMultiaddr : string → Multiaddr * option error
}.

Module identity.

Import api convert.

Section identity.
Context {L : Libs} {E : Codecs} {M : MultiaddrLib}.

(** [MultiaddrToSerial] *)
Definition MultiaddrToSerial (addr : Multiaddr) : string :=
  match addr with
  | Some _ => ma_String addr
  | None => ""
  end.

(** [MultiaddrSerial.ToMultiaddr] *)
Definition ToMultiaddr (addrS : string) : Go Multiaddr :=
  let str := addrS in
  let '(a, err) := ma_NewMultiaddr str in
  log_if_err str err ;;
  go_ret a.

(** [MultiaddrsToSerial]: a nil address leaves the empty string of
    [make]. *)
Definition MultiaddrsToSerial (addrs : list Multiaddr) : list string :=
  (λ a, match a with
        | Some _ => MultiaddrToSerial a
        | None => ""
        end) <$> addrs.

(** [MultiaddrsSerial.ToMultiaddrs] *)
Fixpoint ToMultiaddrs (addrsS : list string) : Go (list Multiaddr) :=
  match addrsS with
  | [] => go_ret []
  | addrS :: rest =>
      a ← ToMultiaddr addrS;
      addrs ← ToMultiaddrs rest;
      go_ret (a :: addrs)
  end.

(** Here too a list holds the elements of a slice, nil or not. *)
Record IPFSID : Type := mkIPFSID {
  IPFSID_ID : PeerID;
  IPFSID_Addresses : list Multiaddr;
  IPFSID_Error : string
}.

Record IPFSIDSerial : Type := mkIPFSIDSerial {
  IPFSIDSerial_ID : string;
  IPFSIDSerial_Addresses : list string;
  IPFSIDSerial_Error : string
}.

(** [IPFSID.ToSerial] *)
Definition IPFSID_ToSerial (id : IPFSID) : IPFSIDSerial :=
  let p := if decide (IPFSID_ID id = "") then ""
           else peer_IDB58Encode (IPFSID_ID id) in
  {| IPFSIDSerial_ID := p;
     IPFSIDSerial_Addresses := MultiaddrsToSerial (IPFSID_Addresses id);
     IPFSIDSerial_Error := IPFSID_Error id |}.

(** [IPFSIDSerial.ToIPFSID]: an ID that does not decode is left empty, and
    nothing is logged about it. *)
Definition ToIPFSID (ids : IPFSIDSerial) : Go IPFSID :=
  let id_ID :=
    match peer_IDB58Decode (IPFSIDSerial_ID ids) with
    | (pID, None) => pID
    | (_, Some _) => ""
    end in
  addrs ← ToMultiaddrs (IPFSIDSerial_Addresses ids);
  go_ret {| IPFSID_ID := id_ID;
            IPFSID_Addresses := addrs;
            IPFSID_Error := IPFSIDSerial_Error ids |}.

Record ID : Type := mkID {
  ID_ID : PeerID;
  ID_Addresses : list Multiaddr;
  ID_ClusterPeers : list PeerID;
  ID_ClusterPeersAddresses : list Multiaddr;
  ID_Version : string;
  ID_Commit : string;
  ID_RPCProtocolVersion : string;
  ID_Error : string;
  ID_IPFS : IPFSID;
  ID_Peername : string
}.

Record IDSerial : Type := mkIDSerial {
  IDSerial_ID : string;
  IDSerial_Addresses : list string;
  IDSerial_ClusterPeers : list string;
  IDSerial_ClusterPeersAddresses : list string;
  IDSerial_Version : string;
  IDSerial_Commit : string;
  IDSerial_RPCProtocolVersion : string;
  IDSerial_Error : string;
  IDSerial_IPFS : IPFSIDSerial;
  IDSerial_Peername : string
}.

(** [ID.ToSerial] *)
Definition ID_ToSerial (id : ID) : IDSerial :=
  let p := if decide (ID_ID id = "") then ""
           else peer_IDB58Encode (ID_ID id) in
  {| IDSerial_ID := p;
     IDSerial_Addresses := MultiaddrsToSerial (ID_Addresses id);
     IDSerial_ClusterPeers := PeersToStrings (ID_ClusterPeers id);
     IDSerial_ClusterPeersAddresses :=
       MultiaddrsToSerial (ID_ClusterPeersAddresses id);
     IDSerial_Version := ID_Version id;
     IDSerial_Commit := ID_Commit id;
     IDSerial_RPCProtocolVersion := ID_RPCProtocolVersion id;
     IDSerial_Error := ID_Error id;
     IDSerial_IPFS := IPFSID_ToSerial (ID_IPFS id);
     IDSerial_Peername := ID_Peername id |}.

(** [IDSerial.ToID] *)
Definition ToID (ids : IDSerial) : Go ID :=
  let '(p, err) := peer_IDB58Decode (IDSerial_ID ids) in
  log_if_err (IDSerial_ID ids) err ;;
  addrs ← ToMultiaddrs (IDSerial_Addresses ids);
  peers ← StringsToPeers (IDSerial_ClusterPeers ids);
  peerAddrs ← ToMultiaddrs (IDSerial_ClusterPeersAddresses ids);
  ipfs ← ToIPFSID (IDSerial_IPFS ids);
  go_ret {| ID_ID := p;
            ID_Addresses := addrs;
            ID_ClusterPeers := peers;
            ID_ClusterPeersAddresses := peerAddrs;
            ID_Version := IDSerial_Version ids;
            ID_Commit := IDSerial_Commit ids;
            ID_RPCProtocolVersion := IDSerial_RPCProtocolVersion ids;
            ID_Error := IDSerial_Error ids;
            ID_IPFS := ipfs;
            ID_Peername := IDSerial_Peername ids |}.

End identity.

(** A multiaddress library for the examples: an address is its own
    string, and the empty string is no address. *)
Definition plain_multiaddrs : MultiaddrLib := {|
  ma_String := λ a, default "" a;
  ma_NewMultiaddr := λ s,
    if decide (s = "") then (None, Some (errors_New "empty multiaddr"))
    else (Some s, None)
|}.

(** An identity, and serial identities whose IDs are empty. *)
Definition sample_id : ID :=
  mkID "P1" [Some "/ip4/10.0.0.1/tcp/9096"] ["P2"; "P3"]
    [Some "/ip4/10.0.0.2/tcp/9096"; Some "/ip4/10.0.0.3/tcp/9096"]
    "0.3.1" "abcdef" "/ipfscluster/0.3/rpc" ""
    (mkIPFSID "" [Some "/ip4/127.0.0.1/tcp/4001"] "") "peer-one".

Definition sample_ipfs_serial : IPFSIDSerial :=
  mkIPFSIDSerial "" ["/ip4/127.0.0.1/tcp/4001"] "".

Definition sample_id_serial : IDSerial :=
  mkIDSerial "" [] [] [] "0.3.1" "" "/ipfscluster/0.3/rpc" ""
    sample_ipfs_serial "peer-one".

(** Decoders that refuse the empty string. *)
Definition strict_libs : Libs := {|
  time_Parse := time_Parse (Libs := fixtures.libs);
  cid_Decode := cid_Decode (Libs := fixtures.libs);
  peer_IDB58Decode := λ s,
    if decide (s = "") then ("", Some (errors_New "empty peer ID"))
    else (s, None);
  peer_Pretty := λ p, p
|}.

End identity.

(* ===================================================================== *)
(** * The scenarios, run *)
(* ===================================================================== *)

Section scenarios.
Import api ipfscluster fixtures.

(** S1: fresh pin, enough candidates. *)
Example scenario_S1 :
  returned (run (cluster [] (usable <$> ["P1"; "P2"; "P3"; "P4"; "P5"])
                   ["P3"; "P1"; "P5"; "P2"; "P4"]) QmC 2 3 [])
  = Some (Some ["P3"; "P1"; "P5"], None).
Proof. vm_compute. reflexivity. Qed.

(** S2: under-replicated, one stale peer. *)
Example scenario_S2 :
  returned (run (cluster ["P1"; "P2"]
                   [usable "P1"; stale "P2"; usable "P3"; usable "P4"; usable "P5"]
                   ["P4"; "P3"; "P5"]) QmC 3 3 [])
  = Some (Some ["P1"; "P4"; "P3"], None).
Proof. vm_compute. reflexivity. Qed.

(** S3: within bounds, no change. *)
Example scenario_S3 :
  returned (run (cluster ["P1"; "P2"; "P3"] (usable <$> ["P1"; "P2"; "P3"]) [])
              QmC 2 4 [])
  = Some (None, None).
Proof. vm_compute. reflexivity. Qed.

(** S4: over-replicated. *)
Example scenario_S4 :
  ∃ A, returned (run (cluster ["P1"; "P2"; "P3"; "P4"]
                        (usable <$> ["P1"; "P2"; "P3"; "P4"]) []) QmC 1 2 [])
       = Some (Some A, None) ∧ length A = 2%nat.
Proof. eexists. vm_compute. split; reflexivity. Qed.

(** S5: insufficient candidates. *)
Example scenario_S5 :
  returned (run (cluster [] [usable "P1"] []) QmC 2 3 [])
  = Some (None, Some (errors_New
      "not enough peers to allocate CID. Needed at least: 2. Wanted at most: 3. Valid candidates: 1. See logs for more info.")).
Proof. vm_compute. reflexivity. Qed.

(** S6: blacklist honored. *)
Example scenario_S6 :
  returned (run (cluster [] (usable <$> ["P1"; "P2"; "P3"]) ["P1"; "P3"])
              QmC 2 2 ["P2"])
  = Some (Some ["P1"; "P3"], None).
Proof. vm_compute. reflexivity. Qed.

End scenarios.

(* ===================================================================== *)
(** * Facts about the Go runtime model *)
(* ===================================================================== *)

Section golang_facts.

Lemma int_wrap_small (z : Z) : is_int z → int_wrap z = z.
Proof.
  unfold is_int, int_min, int_max, int_wrap. intros Hz.
  rewrite Z.mod_small; lia.
Qed.

Lemma len_nonneg {A} (s : list A) : 0 ≤ len s.
Proof. unfold len. lia. Qed.

Lemma returned_ret {A} (a : A) : returned (go_ret a) = Some a.
Proof. reflexivity. Qed.

Lemma returned_bind {A B} (g : Go A) (k : A → Go B) :
  returned (g ≫= k) = returned g ≫= λ a, returned (k a).
Proof.
  destruct g as [l [a|]]; [|reflexivity].
  unfold mbind at 1, Go_bind, go_bind. simpl. by destruct (k a).
Qed.

Lemma logged_bind {A B} (g : Go A) (k : A → Go B) :
  logged (g ≫= k) =
  logged g ++ match returned g with Some a => logged (k a) | None => [] end.
Proof.
  destruct g as [l [a|]]; simpl.
  - unfold mbind, Go_bind, go_bind. by destruct (k a).
  - unfold mbind, Go_bind, go_bind. simpl. by rewrite app_nil_r.
Qed.

Lemma returned_logger_Debugf (format : string) (args : list LogArg) :
  returned (logger_Debugf format args) = Some tt.
Proof. reflexivity. Qed.

Lemma returned_logger_Errorf (format : string) (args : list LogArg) :
  returned (logger_Errorf format args) = Some tt.
Proof. reflexivity. Qed.

Lemma option_bind_Some {A B} (a : A) (f : A → option B) : Some a ≫= f = f a.
Proof. reflexivity. Qed.

Lemma returned_for_each {A} (s : list A) (body : A → Go unit) :
  (∀ x, returned (body x) = Some tt) → returned (for_each s body) = Some tt.
Proof.
  intros Hbody. induction s as [|x s IH]; [reflexivity|].
  simpl. rewrite returned_bind, Hbody. exact IH.
Qed.

Lemma returned_slice_to {A} (s : list A) (hi : Z) :
  0 ≤ hi ≤ len s → returned (slice_to s hi) = Some (take (Z.to_nat hi) s).
Proof.
  intros Hhi. unfold slice_to.
  destruct (hi <? 0) eqn:E1; [lia|].
  destruct (len s <? hi) eqn:E2; [lia|]. reflexivity.
Qed.

Lemma slice_to_inv {A} (s t : list A) (hi : Z) :
  returned (slice_to s hi) = Some t →
  0 ≤ hi ≤ len s ∧ t = take (Z.to_nat hi) s.
Proof.
  unfold slice_to.
  destruct (hi <? 0) eqn:E1; [discriminate|].
  destruct (len s <? hi) eqn:E2; [discriminate|].
  simpl. intros [= <-]. split; [lia|reflexivity].
Qed.

End golang_facts.

(** Erase the log from a goal about the value of a computation. *)
Ltac go_returned :=
  repeat (rewrite returned_bind
          || rewrite returned_ret
          || rewrite returned_logger_Debugf
          || rewrite returned_logger_Errorf
          || rewrite option_bind_Some).

(* ===================================================================== *)
(** * api/types.go: properties *)
(* ===================================================================== *)

Section api_facts.
Import api.
Context {L : Libs}.

Lemma StringsToPeers_returns (strs : list string) :
  ∃ peers, returned (StringsToPeers strs) = Some peers.
Proof.
  induction strs as [|p rest [peers IH]]; [by eexists|].
  simpl. destruct (peer_IDB58Decode p) as [id [e|]];
    rewrite !returned_bind; simpl; rewrite IH; by eexists.
Qed.

(** What [ToPin] returns, decoding aside: the replication factor is -1 for
    the legacy form, and the serial one otherwise. *)
Lemma ToPin_returns (pins : PinSerial) :
  ∃ pin, returned (ToPin pins) = Some pin ∧
    Pin_ReplicationFactor pin =
      if (PinSerial_ReplicationFactor pins =? 0) && PinSerial_Everywhere pins
      then -1 else PinSerial_ReplicationFactor pins.
Proof.
  unfold ToPin.
  destruct (StringsToPeers_returns (PinSerial_Allocations pins)) as [peers Hp].
  destruct (cid_Decode (PinSerial_Cid pins)) as [c [e|]];
    rewrite !returned_bind; simpl; rewrite Hp; simpl; by eexists.
Qed.

(** C9. For every [PinSerial] with [Everywhere] set and a replication factor
    of 0, [ToPin] produces a [Pin] whose replication factor is -1; for every
    [PinSerial] with a nonzero replication factor, [ToPin] produces a [Pin]
    with that same replication factor. *)
Theorem ToPin_replication_factor (pins : PinSerial) :
  (PinSerial_Everywhere pins = true →
   PinSerial_ReplicationFactor pins = 0 →
   ∃ pin, returned (ToPin pins) = Some pin ∧ Pin_ReplicationFactor pin = -1)
  ∧
  (PinSerial_ReplicationFactor pins ≠ 0 →
   ∃ pin, returned (ToPin pins) = Some pin ∧
          Pin_ReplicationFactor pin = PinSerial_ReplicationFactor pins).
Proof.
  destruct (ToPin_returns pins) as (pin & Hret & Hrpl).
  split.
  - intros Hev Hz. exists pin. split; [exact Hret|].
    rewrite Hrpl, Hev, Hz. reflexivity.
  - intros Hnz. exists pin. split; [exact Hret|].
    rewrite Hrpl. destruct (Z.eqb_spec (PinSerial_ReplicationFactor pins) 0);
      [contradiction|reflexivity].
Qed.

(** [Expired] answers [true] exactly when no expiry is set or the clock is
    strictly past the expiry. *)
Lemma Expired_true_iff (now : Time) (m : Metric) :
  returned (Expired now m) = Some true ↔
  Metric_Expire m = "" ∨
  ∃ exp, time_Parse (Metric_Expire m) = Some exp ∧ exp < now.
Proof.
  unfold Expired, After. destruct (decide (Metric_Expire m = "")) as [He|He].
  - split; [by left|reflexivity].
  - destruct (time_Parse (Metric_Expire m)) as [exp|]; simpl.
    + split.
      * intros [= Hlt]. right. exists exp. split; [reflexivity|lia].
      * intros [?|(exp' & [= <-] & Hlt)]; [done|].
        f_equal. lia.
    + split; [discriminate|]. by intros [?|(? & ? & ?)].
Qed.

End api_facts.

(* ===================================================================== *)
(** * Allocation: properties *)
(* ===================================================================== *)

Section allocation_facts.
Import api ipfscluster notions.
Context {L : Libs} {R : MapRange} {H : Helpers}.

(** ** Ranging over a map *)

Lemma length_range_keys (m : gmap PeerID Metric) :
  length (range_keys m) = size m.
Proof.
  rewrite (Permutation_length (range_keys_perm m)), length_fmap.
  apply length_map_to_list.
Qed.

Lemma len_range_keys (m : gmap PeerID Metric) :
  len (range_keys m) = Z.of_nat (size m).
Proof. unfold len. by rewrite length_range_keys. Qed.

Lemma elem_of_range_keys (m : gmap PeerID Metric) (p : PeerID) :
  p ∈ range_keys m ↔ is_Some (m !! p).
Proof.
  rewrite (range_keys_perm m), list_elem_of_fmap. split.
  - intros ([k v] & -> & Hkv). apply elem_of_map_to_list in Hkv. by eexists.
  - intros [v Hv]. exists (p, v). split; [done|]. by apply elem_of_map_to_list.
Qed.

Lemma NoDup_range_keys (m : gmap PeerID Metric) : NoDup (range_keys m).
Proof. rewrite (range_keys_perm m). apply NoDup_fst_map_to_list. Qed.

Lemma size_insert_le (m : gmap PeerID Metric) (p : PeerID) (x : Metric) :
  (size (<[p := x]> m) ≤ S (size m))%nat.
Proof.
  destruct (m !! p) as [y|] eqn:Hp.
  - erewrite map_size_insert_Some by done. lia.
  - rewrite map_size_insert_None by done. lia.
Qed.

(** ** The loop that divides the metrics *)

(** Every peer that the loop adds to one of the two maps comes with a metric
    that was not discarded, is not blacklisted, and sits on the side that
    the current allocations dictate. *)
Lemma divideMetrics_sound (now : nat → Time) (blacklist current : list PeerID)
    (metrics : list Metric) :
  ∀ (i : nat) (cur cand cur' cand' : gmap PeerID Metric),
    returned (divideMetrics now i metrics blacklist current cur cand)
      = Some (cur', cand') →
    (∀ p, is_Some (cur' !! p) →
       is_Some (cur !! p) ∨
       (p ∈ current ∧ (p ∉ blacklist) ∧
        ∃ j m, metrics !! j = Some m ∧ Metric_Peer m = p ∧
               returned (Discard (now (i + j)%nat) m) = Some false)) ∧
    (∀ p, is_Some (cand' !! p) →
       is_Some (cand !! p) ∨
       ((p ∉ current) ∧ (p ∉ blacklist) ∧
        ∃ j m, metrics !! j = Some m ∧ Metric_Peer m = p ∧
               returned (Discard (now (i + j)%nat) m) = Some false)) ∧
    (size cur' ≤ size cur + length metrics)%nat.
Proof.
  induction metrics as [|m rest IH]; intros i cur cand cur' cand'.
  - simpl. intros [= <- <-]. repeat split; [by left|by left|lia].
  - simpl. rewrite returned_bind.
    destruct (returned (Discard (now i) m)) as [d|] eqn:Hd; [|discriminate].
    simpl.
    assert (Hshift : ∀ p (Q : PeerID → Prop),
      (Q p ∧ (p ∉ blacklist) ∧
        ∃ j m0, rest !! j = Some m0 ∧ Metric_Peer m0 = p ∧
                returned (Discard (now (S i + j)%nat) m0) = Some false) →
      (Q p ∧ (p ∉ blacklist) ∧
        ∃ j m0, (m :: rest) !! j = Some m0 ∧ Metric_Peer m0 = p ∧
                returned (Discard (now (i + j)%nat) m0) = Some false)).
    { intros p Q (HQ & Hbl & j & m0 & Hj & Hp & Hm0).
      split; [done|]. split; [done|]. exists (S j), m0.
      split; [done|]. split; [done|].
      by replace (i + S j)%nat with (S i + j)%nat by lia. }
    assert (Hhere : ∀ (Q : PeerID → Prop),
      d = false → containsPeer blacklist (Metric_Peer m) = false →
      Q (Metric_Peer m) →
      (Q (Metric_Peer m) ∧ (Metric_Peer m ∉ blacklist) ∧
        ∃ j m0, (m :: rest) !! j = Some m0 ∧ Metric_Peer m0 = Metric_Peer m ∧
                returned (Discard (now (i + j)%nat) m0) = Some false)).
    { intros Q -> Hbl HQ. split; [done|]. split.
      - unfold containsPeer in Hbl. by apply bool_decide_eq_false in Hbl.
      - exists 0%nat, m. split; [done|]. split; [done|].
        by replace (i + 0)%nat with i by lia. }
    destruct (d || containsPeer blacklist (Metric_Peer m)) eqn:Hskip.
    + intros Hrun. destruct (IH _ _ _ _ _ Hrun) as (Hc & Hd' & Hsz).
      split; [|split; [|lia]].
      * intros p Hp. destruct (Hc p Hp) as [?|Hin]; [by left|].
        right. by apply (Hshift p (λ q, q ∈ current)).
      * intros p Hp. destruct (Hd' p Hp) as [?|Hin]; [by left|].
        right. by apply (Hshift p (λ q, q ∉ current)).
    + apply orb_false_iff in Hskip as [-> Hbl].
      destruct (containsPeer current (Metric_Peer m)) eqn:Hcur.
      * intros Hrun. destruct (IH _ _ _ _ _ Hrun) as (Hc & Hd' & Hsz).
        split; [|split].
        -- intros p Hp. destruct (Hc p Hp) as [Hold|Hin].
           ++ destruct (decide (Metric_Peer m = p)) as [<-|Hne].
              ** right. apply (Hhere (λ q, q ∈ current)); [done|done|].
                 unfold containsPeer in Hcur.
                 by apply bool_decide_eq_true in Hcur.
              ** left. by rewrite lookup_insert_ne in Hold.
           ++ right. by apply (Hshift p (λ q, q ∈ current)).
        -- intros p Hp. destruct (Hd' p Hp) as [?|Hin]; [by left|].
           right. by apply (Hshift p (λ q, q ∉ current)).
        -- pose proof (size_insert_le cur (Metric_Peer m) m). simpl. lia.
      * intros Hrun. destruct (IH _ _ _ _ _ Hrun) as (Hc & Hd' & Hsz).
        split; [|split].
        -- intros p Hp. destruct (Hc p Hp) as [?|Hin]; [by left|].
           right. by apply (Hshift p (λ q, q ∈ current)).
        -- intros p Hp. destruct (Hd' p Hp) as [Hold|Hin].
           ++ destruct (decide (Metric_Peer m = p)) as [<-|Hne].
              ** right. apply (Hhere (λ q, q ∉ current)); [done|done|].
                 unfold containsPeer in Hcur.
                 by apply bool_decide_eq_false in Hcur.
              ** left. by rewrite lookup_insert_ne in Hold.
           ++ right. by apply (Hshift p (λ q, q ∉ current)).
        -- simpl. lia.
Qed.

(** The loop logs nothing. *)
Lemma divideMetrics_silent (now : nat → Time) (blacklist current : list PeerID)
    (metrics : list Metric) :
  ∀ (i : nat) (cur cand : gmap PeerID Metric),
    logged (divideMetrics now i metrics blacklist current cur cand) = [].
Proof.
  induction metrics as [|m rest IH]; intros i cur cand; [reflexivity|].
  simpl. rewrite logged_bind.
  assert (Hq : logged (Discard (now i) m) = []).
  { unfold Discard, Expired. destruct (negb (Metric_Valid m)); [done|].
    destruct (decide _); [done|]. by destruct (time_Parse _). }
  rewrite Hq. simpl.
  destruct (returned (Discard (now i) m)) as [d|]; [|done].
  destruct (d || _); [apply IH|]. destruct (containsPeer current _); apply IH.
Qed.

(** ** [allocationError] *)

Lemma logged_for_each {A} (s : list A) (f : A → LogRecord) :
  logged (for_each s (λ x, ([f x], Some tt))) = f <$> s.
Proof.
  induction s as [|x s IH]; [reflexivity|].
  cbn [for_each]. rewrite logged_bind. cbn [logged returned fst snd].
  by rewrite IH.
Qed.

Lemma allocationError_returned (hash : Cid) (needed wanted : Z)
    (candidatesValid : list PeerID) :
  returned (allocationError hash needed wanted candidatesValid)
  = Some (errors_New (not_enough_peers needed wanted (len candidatesValid))).
Proof.
  unfold allocationError. go_returned.
  rewrite returned_for_each by done. reflexivity.
Qed.

Lemma allocationError_logged (hash : Cid) (needed wanted : Z)
    (candidatesValid : list PeerID) :
  logged (allocationError hash needed wanted candidatesValid)
  = [ mkLog ERROR (Some "Not enough candidates to allocate %s:") [ACid hash];
      mkLog ERROR (Some "  Needed: %d") [AInt needed];
      mkLog ERROR (Some "  Wanted: %d") [AInt wanted];
      mkLog ERROR (Some "  Valid candidates: %d:") [AInt (len candidatesValid)] ]
    ++ ((λ p, mkLog ERROR (Some "    - %s") [AStr (peer_Pretty p)])
          <$> candidatesValid).
Proof.
  unfold allocationError. rewrite !logged_bind. simpl.
  rewrite returned_for_each by done.
  unfold logger_Errorf. rewrite logged_for_each. simpl.
  by rewrite app_nil_r.
Qed.

(** ** [obtainAllocations] *)

(** The value of [obtainAllocations], the log left aside. *)
Lemma obtainAllocations_returned (c : Cluster) (hash : Cid) (rplMin rplMax : Z)
    (cur cand : gmap PeerID Metric) :
  returned (obtainAllocations c hash rplMin rplMax cur cand) =
  let valid := range_keys cur in
  let needed := int_sub rplMin (len valid) in
  let wanted := int_sub rplMax (len valid) in
  if wanted <=? 0 then
    s ← returned (slice_to valid (int_add (len valid) wanted));
    Some (Some s, None)
  else if needed <=? 0 then Some (None, None)
  else if Z.of_nat (size cand) <? needed then
    Some (None, Some (errors_New
            (not_enough_peers needed wanted (len (range_keys cand)))))
  else
    match allocator_Allocate c hash cur cand with
    | Err err => e ← returned (logError (Error err)); Some (None, Some e)
    | Ok final =>
        if len final <? needed then
          Some (None, Some (errors_New
                  (not_enough_peers needed wanted (len final))))
        else
          s ← returned (slice_to final (minInt wanted (len final)));
          Some (Some (valid ++ s), None)
    end.
Proof.
  unfold obtainAllocations. go_returned. cbv zeta.
  destruct (int_sub rplMax _ <=? 0); [by go_returned|].
  destruct (int_sub rplMin _ <=? 0); [done|].
  destruct (_ <? _).
  { go_returned. by rewrite allocationError_returned. }
  destruct (allocator_Allocate c hash cur cand) as [final|err]; go_returned.
  - destruct (len final <? _); go_returned; [|done].
    by rewrite allocationError_returned.
  - done.
Qed.

(** Under the contract the subtractions do not wrap, and the decision reads
    as follows. *)
Lemma obtainAllocations_decides (c : Cluster) (hash : Cid) (rplMin rplMax : Z)
    (cur cand : gmap PeerID Metric) :
  valid_factors rplMin rplMax →
  Z.of_nat (size cur) ≤ int_max →
  returned (obtainAllocations c hash rplMin rplMax cur cand) =
  let nCur := Z.of_nat (size cur) in
  let needed := rplMin - nCur in
  let wanted := rplMax - nCur in
  if wanted <=? 0 then
    Some (Some (take (Z.to_nat rplMax) (range_keys cur)), None)
  else if needed <=? 0 then Some (None, None)
  else if Z.of_nat (size cand) <? needed then
    Some (None, Some (errors_New
            (not_enough_peers needed wanted (Z.of_nat (size cand)))))
  else
    match allocator_Allocate c hash cur cand with
    | Err err => e ← returned (logError (Error err)); Some (None, Some e)
    | Ok final =>
        if len final <? needed then
          Some (None, Some (errors_New
                  (not_enough_peers needed wanted (len final))))
        else
          Some (Some (range_keys cur
                        ++ take (Z.to_nat (Z.min wanted (len final))) final),
                None)
    end.
Proof.
  intros (Hpos & Hle & Hmax) Hcur.
  rewrite obtainAllocations_returned. cbv zeta.
  rewrite !len_range_keys.
  assert (Hn : int_sub rplMin (Z.of_nat (size cur)) = rplMin - Z.of_nat (size cur)).
  { apply int_wrap_small. unfold is_int, int_min, int_max in *. lia. }
  assert (Hw : int_sub rplMax (Z.of_nat (size cur)) = rplMax - Z.of_nat (size cur)).
  { apply int_wrap_small. unfold is_int, int_min, int_max in *. lia. }
  rewrite Hn, Hw.
  destruct (Z.leb_spec (rplMax - Z.of_nat (size cur)) 0) as [Hover|Hwant].
  { assert (Hhi : int_add (Z.of_nat (size cur)) (rplMax - Z.of_nat (size cur))
                  = rplMax).
    { unfold int_add. rewrite int_wrap_small.
      - lia.
      - unfold is_int, int_min, int_max in *. lia. }
    rewrite Hhi, returned_slice_to; [done|].
    rewrite len_range_keys. lia. }
  destruct (Z.leb_spec (rplMin - Z.of_nat (size cur)) 0) as [Hok|Hneed]; [done|].
  destruct (Z.ltb_spec (Z.of_nat (size cand)) (rplMin - Z.of_nat (size cur)));
    [done|].
  destruct (allocator_Allocate c hash cur cand) as [final|err]; [|done].
  destruct (Z.ltb_spec (len final) (rplMin - Z.of_nat (size cur))); [done|].
  unfold minInt. rewrite returned_slice_to; [done|].
  pose proof (len_nonneg final). lia.
Qed.

(** ** [allocate] *)

Lemma allocate_returned (c : Cluster) (now : nat → Time) (hash : Cid)
    (rplMin rplMax : Z) (blacklist : list PeerID) (metrics : list Metric) :
  getInformerMetrics c = Ok metrics →
  returned (allocate c now hash rplMin rplMax blacklist) =
  '(cur, cand) ← partition c now hash blacklist metrics;
  returned (obtainAllocations c hash rplMin rplMax cur cand).
Proof.
  intros Hm. unfold allocate, partition. rewrite Hm, returned_bind.
  destruct (returned (divideMetrics _ _ _ _ _ _ _)) as [[cur cand]|]; done.
Qed.

Lemma allocate_logged (c : Cluster) (now : nat → Time) (hash : Cid)
    (rplMin rplMax : Z) (blacklist : list PeerID) (metrics : list Metric)
    (cur cand : gmap PeerID Metric) :
  getInformerMetrics c = Ok metrics →
  partition c now hash blacklist metrics = Some (cur, cand) →
  logged (allocate c now hash rplMin rplMax blacklist) =
  logged (obtainAllocations c hash rplMin rplMax cur cand).
Proof.
  intros Hm Hp. unfold allocate, partition in *.
  rewrite Hm, logged_bind, divideMetrics_silent, Hp. done.
Qed.

Lemma partition_size (c : Cluster) (now : nat → Time) (hash : Cid)
    (blacklist : list PeerID) (metrics : list Metric)
    (cur cand : gmap PeerID Metric) :
  partition c now hash blacklist metrics = Some (cur, cand) →
  len metrics ≤ int_max →
  Z.of_nat (size cur) ≤ int_max.
Proof.
  intros Hp Hlen. apply divideMetrics_sound in Hp as (_ & _ & Hsz).
  rewrite map_size_empty in Hsz. unfold len in Hlen. lia.
Qed.

End allocation_facts.

(* ===================================================================== *)
(** * The properties claimed by the specification *)
(* ===================================================================== *)

Section metric_claims.
Import api fixtures.

(** C2 (as amended). [Expired] returns true if and only if no expiry is set
    or the current time is strictly after the expiry instant; it returns
    false if and only if the expiry is set, well-formed and not before the
    current time; it panics if and only if the expiry is set and malformed;
    for a metric whose [Expire] timestamp equals the current instant
    exactly, [Expired] returns false. *)
Theorem Expired_strictly_after `{L : Libs} (now : Time) (m : Metric) :
  (returned (Expired now m) = Some true ↔
   Metric_Expire m = "" ∨
   ∃ exp, time_Parse (Metric_Expire m) = Some exp ∧ exp < now)
  ∧
  (returned (Expired now m) = Some false ↔
   Metric_Expire m ≠ "" ∧
   ∃ exp, time_Parse (Metric_Expire m) = Some exp ∧ now ≤ exp)
  ∧
  (returned (Expired now m) = None ↔
   Metric_Expire m ≠ "" ∧ time_Parse (Metric_Expire m) = None)
  ∧
  (Metric_Expire m ≠ "" → time_Parse (Metric_Expire m) = Some now →
   returned (Expired now m) = Some false).
Proof.
  split; [apply Expired_true_iff|].
  unfold Expired, After.
  destruct (decide (Metric_Expire m = "")) as [He|He].
  { split; [|split]; [split|split|done]; try done.
    - by intros [? _].
    - by intros [? _]. }
  destruct (time_Parse (Metric_Expire m)) as [exp|]; rewrite ?returned_ret.
  - split; [|split]; [split|split|].
    + intros [= Hge%Z.ltb_ge]. split; [done|]. by exists exp.
    + intros (_ & exp' & [= <-] & Hle). f_equal. by apply Z.ltb_ge.
    + done.
    + by intros [_ ?].
    + intros _ [= ->]. f_equal. apply Z.ltb_irrefl.
  - split; [|split]; [split|split|]; try done.
    by intros (_ & exp & ? & _).
Qed.

Lemma Expired_strictly_after_witness :
  Metric_Expire (stale "P1") ≠ "" ∧
  time_Parse (Libs := libs) (Metric_Expire (stale "P1")) = Some noon ∧
  returned (Expired (L := libs) noon (stale "P1")) = Some false.
Proof.
  split; [discriminate|]. split; [reflexivity|].
  apply (proj2 (proj2 (proj2
           (Expired_strictly_after (L := libs) noon (stale "P1")))));
    [discriminate|reflexivity].
Defined.

(** C2, as stated, fails: the metric [stale "P1"] expires at noon, and at
    noon exactly [Expired] answers false. *)
Lemma Expired_at_expiry_instant :
  time_Parse (Libs := libs) (Metric_Expire (stale "P1")) = Some noon ∧
  returned (Expired (L := libs) noon (stale "P1")) = Some false.
Proof. split; reflexivity. Qed.

(** At the instant of expiry a valid metric is therefore still usable. *)
Lemma Discard_at_expiry_instant :
  returned (Discard (L := libs) noon (stale "P1")) = Some false.
Proof. reflexivity. Qed.

Lemma ToPin_replication_factor_witness :
  (∃ pin, returned (ToPin (L := libs) (mkPinSerial "QmC" "legacy" ["P1"] true 0))
          = Some pin ∧ Pin_ReplicationFactor pin = -1) ∧
  (∃ pin, returned (ToPin (L := libs) (mkPinSerial "QmC" "plain" ["P1"] false 2))
          = Some pin ∧ Pin_ReplicationFactor pin = 2).
Proof.
  split.
  - apply (proj1 (ToPin_replication_factor (L := libs)
                    (mkPinSerial "QmC" "legacy" ["P1"] true 0)));
      reflexivity.
  - apply (proj2 (ToPin_replication_factor (L := libs)
                    (mkPinSerial "QmC" "plain" ["P1"] false 2))).
    simpl. lia.
Defined.

End metric_claims.

Section allocation_claims.
Import api ipfscluster notions.
Context {L : Libs} {R : MapRange} {H : Helpers}.

(** C8. If the monitor leader cannot be determined, the metric fetch fails
    with a no-leader error and [allocate] returns that error with a nil
    list, having decided nothing (and logged nothing). *)
Theorem allocate_no_leader (c : Cluster) (now : nat → Time) (hash : Cid)
    (rplMin rplMax : Z) (blacklist : list PeerID) (e : error) :
  consensus_Leader c = Err e →
  getInformerMetrics c = Err (errors_New "cannot determine leading Monitor") ∧
  allocate c now hash rplMin rplMax blacklist
  = go_ret (None, Some (errors_New "cannot determine leading Monitor")).
Proof.
  intros Hl.
  assert (Hm : getInformerMetrics c
               = Err (errors_New "cannot determine leading Monitor")).
  { unfold getInformerMetrics. by rewrite Hl. }
  split; [exact Hm|]. unfold allocate. by rewrite Hm.
Qed.

(** C10. Whenever [allocate] returns a non-nil error, the list it returns
    with it is nil. *)
Theorem allocate_error_nil_list (c : Cluster) (now : nat → Time) (hash : Cid)
    (rplMin rplMax : Z) (blacklist : list PeerID)
    (peers : option (list PeerID)) (e : error) :
  returned (allocate c now hash rplMin rplMax blacklist) = Some (peers, Some e) →
  peers = None.
Proof.
  destruct (getInformerMetrics c) as [metrics|err] eqn:Hm.
  - rewrite (allocate_returned _ _ _ _ _ _ metrics Hm).
    destruct (partition c now hash blacklist metrics) as [[cur cand]|];
      [|discriminate].
    rewrite option_bind_Some, obtainAllocations_returned. cbv zeta.
    destruct (int_sub rplMax _ <=? 0).
    { destruct (returned (slice_to _ _)); simpl; congruence. }
    destruct (int_sub rplMin _ <=? 0); [congruence|].
    destruct (_ <? _); [congruence|].
    destruct (allocator_Allocate c hash cur cand) as [final|err'].
    + destruct (len final <? _); [congruence|].
      destruct (returned (slice_to _ _)); simpl; congruence.
    + destruct (returned (logError _)); simpl; congruence.
  - unfold allocate. rewrite Hm. simpl. congruence.
Qed.

(** ** Who ends up in the two maps *)

Lemma partition_current (c : Cluster) (now : nat → Time) (hash : Cid)
    (blacklist : list PeerID) (metrics : list Metric)
    (cur cand : gmap PeerID Metric) (p : PeerID) :
  partition c now hash blacklist metrics = Some (cur, cand) →
  is_Some (cur !! p) →
  p ∈ getCurrentAllocations c hash ∧ (p ∉ blacklist) ∧
  has_usable_metric now metrics p.
Proof.
  intros Hp Hin. apply divideMetrics_sound in Hp as (Hc & _ & _).
  destruct (Hc p Hin) as [Hempty|(? & ? & j & m & ? & ? & ?)].
  - rewrite lookup_empty in Hempty. by destruct Hempty.
  - repeat split; [done..|]. by exists j, m.
Qed.

Lemma partition_candidate (c : Cluster) (now : nat → Time) (hash : Cid)
    (blacklist : list PeerID) (metrics : list Metric)
    (cur cand : gmap PeerID Metric) (p : PeerID) :
  partition c now hash blacklist metrics = Some (cur, cand) →
  is_Some (cand !! p) →
  (p ∉ getCurrentAllocations c hash) ∧ (p ∉ blacklist) ∧
  has_usable_metric now metrics p.
Proof.
  intros Hp Hin. apply divideMetrics_sound in Hp as (_ & Hc & _).
  destruct (Hc p Hin) as [Hempty|(? & ? & j & m & ? & ? & ?)].
  - rewrite lookup_empty in Hempty. by destruct Hempty.
  - repeat split; [done..|]. by exists j, m.
Qed.

(** When the monitor reports one metric per peer, a peer with a usable
    metric has no discarded one. *)
Lemma usable_not_discarded (now : nat → Time) (metrics : list Metric)
    (p : PeerID) :
  one_metric_per_peer metrics →
  has_usable_metric now metrics p →
  ¬ has_discarded_metric now metrics p.
Proof.
  intros Hone (i & m & Hi & Hp & Hu) (j & m' & Hj & Hp' & Hd).
  assert (i = j) as <-.
  { apply (NoDup_lookup (Metric_Peer <$> metrics) i j p Hone);
      rewrite list_lookup_fmap.
    - by rewrite Hi; simpl; f_equal.
    - by rewrite Hj; simpl; f_equal. }
  congruence.
Qed.

(** ** Within bounds *)

(** Strictly below the maximum and at or above the minimum, nothing
    changes. *)
Lemma allocate_keeps_below_rplMax (c : Cluster) (now : nat → Time)
    (hash : Cid) (rplMin rplMax : Z) (blacklist : list PeerID)
    (metrics : list Metric) (cur cand : gmap PeerID Metric) :
  getInformerMetrics c = Ok metrics →
  len metrics ≤ int_max →
  valid_factors rplMin rplMax →
  partition c now hash blacklist metrics = Some (cur, cand) →
  rplMin ≤ Z.of_nat (size cur) < rplMax →
  returned (allocate c now hash rplMin rplMax blacklist) = Some (None, None).
Proof.
  intros Hm Hlen Hvf Hp Hin.
  rewrite (allocate_returned _ _ _ _ _ _ metrics Hm), Hp, option_bind_Some.
  rewrite obtainAllocations_decides by eauto using partition_size.
  cbv zeta.
  destruct (Z.leb_spec (rplMax - Z.of_nat (size cur)) 0); [lia|].
  destruct (Z.leb_spec (rplMin - Z.of_nat (size cur)) 0); [done|lia].
Qed.

(** At the maximum exactly, [wanted] is 0 and the test [wanted <= 0] sends
    the call to the branch that drops peers: the whole list of
    current-valid peers comes back as a new allocation. *)
Lemma allocate_at_rplMax (c : Cluster) (now : nat → Time)
    (hash : Cid) (rplMin rplMax : Z) (blacklist : list PeerID)
    (metrics : list Metric) (cur cand : gmap PeerID Metric) :
  getInformerMetrics c = Ok metrics →
  len metrics ≤ int_max →
  valid_factors rplMin rplMax →
  partition c now hash blacklist metrics = Some (cur, cand) →
  Z.of_nat (size cur) = rplMax →
  returned (allocate c now hash rplMin rplMax blacklist)
  = Some (Some (range_keys cur), None).
Proof.
  intros Hm Hlen Hvf Hp Hin.
  rewrite (allocate_returned _ _ _ _ _ _ metrics Hm), Hp, option_bind_Some.
  rewrite obtainAllocations_decides by eauto using partition_size.
  cbv zeta.
  destruct (Z.leb_spec (rplMax - Z.of_nat (size cur)) 0); [|lia].
  rewrite take_ge; [done|]. rewrite length_range_keys. lia.
Qed.

(** ** Lengths *)

(** C5. A non-nil list returned by [allocate] has at most [rplMax] entries
    and, the contract [0 < rplMin <= rplMax] being met, at least [rplMin]:
    when fewer usable peers exist the call fails instead. *)
Theorem allocate_length_bounds (c : Cluster) (now : nat → Time)
    (hash : Cid) (rplMin rplMax : Z) (blacklist : list PeerID)
    (metrics : list Metric) (A : list PeerID) (e : option error) :
  getInformerMetrics c = Ok metrics →
  len metrics ≤ int_max →
  valid_factors rplMin rplMax →
  returned (allocate c now hash rplMin rplMax blacklist) = Some (Some A, e) →
  rplMin ≤ len A ≤ rplMax.
Proof.
  intros Hm Hlen Hvf.
  rewrite (allocate_returned _ _ _ _ _ _ metrics Hm).
  destruct (partition c now hash blacklist metrics) as [[cur cand]|] eqn:Hp;
    [|discriminate].
  rewrite option_bind_Some.
  rewrite obtainAllocations_decides by eauto using partition_size.
  cbv zeta. destruct Hvf as (Hpos & Hle & Hmax).
  destruct (Z.leb_spec (rplMax - Z.of_nat (size cur)) 0) as [Hover|Hwant].
  { intros [= <- <-]. unfold len.
    rewrite length_take, length_range_keys. lia. }
  destruct (Z.leb_spec (rplMin - Z.of_nat (size cur)) 0); [discriminate|].
  destruct (Z.ltb_spec (Z.of_nat (size cand)) (rplMin - Z.of_nat (size cur)));
    [discriminate|].
  destruct (allocator_Allocate c hash cur cand) as [final|err].
  - destruct (Z.ltb_spec (len final) (rplMin - Z.of_nat (size cur)));
      [discriminate|].
    intros [= <- <-]. unfold len in *.
    rewrite length_app, length_take, length_range_keys. lia.
  - destruct (returned (logError _)); discriminate.
Qed.

(** ** The expand branch *)

(** C6. In the expand branch ([need > 0], enough valid candidates, and an
    allocator that ranked at least [need] peers) [allocate] returns the
    current-valid peers, each once, followed by exactly
    [min(want, |ranked|)] entries from the front of the ranked list; the
    current-valid peers are a prefix of the result. *)
Theorem allocate_expand (c : Cluster) (now : nat → Time)
    (hash : Cid) (rplMin rplMax : Z) (blacklist : list PeerID)
    (metrics : list Metric) (cur cand : gmap PeerID Metric)
    (ranked : list PeerID) :
  getInformerMetrics c = Ok metrics →
  len metrics ≤ int_max →
  valid_factors rplMin rplMax →
  partition c now hash blacklist metrics = Some (cur, cand) →
  let need := rplMin - Z.of_nat (size cur) in
  let want := rplMax - Z.of_nat (size cur) in
  0 < need →
  need ≤ Z.of_nat (size cand) →
  allocator_Allocate c hash cur cand = Ok ranked →
  need ≤ len ranked →
  ∃ valid new,
    returned (allocate c now hash rplMin rplMax blacklist)
      = Some (Some (valid ++ new), None) ∧
    valid ≡ₚ (map_to_list cur).*1 ∧
    new = take (Z.to_nat (Z.min want (len ranked))) ranked ∧
    len new = Z.min want (len ranked) ∧
    valid `prefix_of` valid ++ new.
Proof.
  intros Hm Hlen Hvf Hp need want Hneed Hcand Hrank Hgot.
  exists (range_keys cur), (take (Z.to_nat (Z.min want (len ranked))) ranked).
  split; [|split; [apply range_keys_perm|split; [done|split]]].
  - rewrite (allocate_returned _ _ _ _ _ _ metrics Hm), Hp, option_bind_Some.
    rewrite obtainAllocations_decides by eauto using partition_size.
    cbv zeta. fold need want. destruct Hvf as (Hpos & Hle & Hmax).
    destruct (Z.leb_spec want 0); [unfold need, want in *; lia|].
    destruct (Z.leb_spec need 0); [lia|].
    destruct (Z.ltb_spec (Z.of_nat (size cand)) need); [lia|].
    rewrite Hrank. destruct (Z.ltb_spec (len ranked) need); [lia|done].
  - unfold len in *. rewrite length_take. destruct Hvf as (Hpos & Hle & Hmax).
    unfold need, want in *. lia.
  - by apply prefix_app_r.
Qed.

(** ** Blacklisted and discarded peers *)

(** A metric that [Discard] lets through is valid, and its expiry is set,
    well-formed and not before the clock. *)
Lemma Discard_false_inv (t : Time) (m : Metric) :
  returned (Discard t m) = Some false →
  Metric_Valid m = true ∧
  ∃ exp, time_Parse (Metric_Expire m) = Some exp ∧ t ≤ exp.
Proof.
  unfold Discard, Expired, After. destruct (Metric_Valid m); [|discriminate].
  cbn [negb]. destruct (decide (Metric_Expire m = "")); [discriminate|].
  destruct (time_Parse (Metric_Expire m)) as [exp|]; [|discriminate].
  rewrite returned_ret. intros [= Hge%Z.ltb_ge]. split; [done|]. by exists exp.
Qed.

(** C7 (as amended). When the allocator ranks only peers of its candidate
    input, no peer of a returned non-nil list is blacklisted; every one of
    them has a metric that [Discard] found usable when the loop examined
    it, that is a valid metric whose expiry was not before the clock (at
    the very instant of its expiry a metric still counts); and, the monitor
    reporting one metric per peer, none of them has a metric that [Discard]
    found discarded (invalid, without expiry, or with the clock strictly
    past its expiry). *)
Theorem allocate_excludes_blacklisted_and_discarded (c : Cluster)
    (now : nat → Time) (hash : Cid) (rplMin rplMax : Z)
    (blacklist : list PeerID) (metrics : list Metric)
    (A : list PeerID) (e : option error) (p : PeerID) :
  ranks_candidates_only c →
  getInformerMetrics c = Ok metrics →
  returned (allocate c now hash rplMin rplMax blacklist) = Some (Some A, e) →
  p ∈ A →
  (p ∉ blacklist) ∧
  has_usable_metric now metrics p ∧
  (∃ i m exp, metrics !! i = Some m ∧ Metric_Peer m = p ∧
              Metric_Valid m = true ∧
              time_Parse (Metric_Expire m) = Some exp ∧ now i ≤ exp) ∧
  (one_metric_per_peer metrics → ¬ has_discarded_metric now metrics p).
Proof.
  intros Hpolicy Hm Hret HpA.
  assert (Hgood : (p ∉ blacklist) ∧ has_usable_metric now metrics p).
  { revert Hret. rewrite (allocate_returned _ _ _ _ _ _ metrics Hm).
    destruct (partition c now hash blacklist metrics) as [[cur cand]|] eqn:Hp;
      [|discriminate].
    rewrite option_bind_Some, obtainAllocations_returned. cbv zeta.
    destruct (int_sub rplMax _ <=? 0).
    { destruct (returned (slice_to _ _)) as [s|] eqn:Hs; [|discriminate].
      rewrite option_bind_Some. intros [= <- <-].
      apply slice_to_inv in Hs as [_ ->].
      apply elem_of_take in HpA as (i & Hi & _).
      apply list_elem_of_lookup_2, elem_of_range_keys in Hi.
      by destruct (partition_current _ _ _ _ _ _ _ _ Hp Hi) as (_ & ? & ?). }
    destruct (int_sub rplMin _ <=? 0); [discriminate|].
    destruct (_ <? _); [discriminate|].
    destruct (allocator_Allocate c hash cur cand) as [final|err] eqn:Hrank.
    - destruct (len final <? _); [discriminate|].
      destruct (returned (slice_to _ _)) as [s|] eqn:Hs; [|discriminate].
      rewrite option_bind_Some. intros [= <- <-].
      apply slice_to_inv in Hs as [_ ->].
      apply elem_of_app in HpA as [Hold|Hnew].
      + apply elem_of_range_keys in Hold.
        by destruct (partition_current _ _ _ _ _ _ _ _ Hp Hold) as (_ & ? & ?).
      + apply elem_of_take in Hnew as (i & Hi & _).
        apply list_elem_of_lookup_2 in Hi.
        pose proof (Hpolicy _ _ _ _ Hrank p Hi) as Hcand.
        by destruct (partition_candidate _ _ _ _ _ _ _ _ Hp Hcand) as (_ & ? & ?).
    - destruct (returned (logError _)); discriminate. }
  destruct Hgood as [Hbl Hus]. split; [done|]. split; [done|]. split.
  - destruct Hus as (i & m & Hi & Hpeer & Hd).
    apply Discard_false_inv in Hd as (Hvalid & exp & Hparse & Hle).
    by exists i, m, exp.
  - intros Hone. by apply usable_not_discarded.
Qed.

(** ** Insufficient candidates *)

Lemma factors_exact (rplMin rplMax : Z) (cur : gmap PeerID Metric) :
  valid_factors rplMin rplMax →
  Z.of_nat (size cur) ≤ int_max →
  int_sub rplMin (len (range_keys cur)) = rplMin - Z.of_nat (size cur) ∧
  int_sub rplMax (len (range_keys cur)) = rplMax - Z.of_nat (size cur).
Proof.
  intros (Hpos & Hle & Hmax) Hcur. rewrite len_range_keys.
  split; apply int_wrap_small; unfold is_int, int_min, int_max in *; lia.
Qed.

Lemma logged_Debugf_then {A} (format : string) (args : list LogArg)
    (k : unit → Go A) :
  logged (logger_Debugf format args ≫= k)
  = mkLog DEBUG (Some format) args :: logged (k tt).
Proof. by rewrite logged_bind. Qed.

(** In both failing branches the records logged by [allocationError] are
    part of the log of [obtainAllocations]. *)
Lemma obtainAllocations_logs_error (c : Cluster) (hash : Cid)
    (rplMin rplMax : Z) (cur cand : gmap PeerID Metric)
    (considered : list PeerID) (r : LogRecord) :
  valid_factors rplMin rplMax →
  Z.of_nat (size cur) ≤ int_max →
  let need := rplMin - Z.of_nat (size cur) in
  let want := rplMax - Z.of_nat (size cur) in
  0 < need →
  (Z.of_nat (size cand) < need ∧ considered = range_keys cand) ∨
  (need ≤ Z.of_nat (size cand) ∧
   allocator_Allocate c hash cur cand = Ok considered ∧
   len considered < need) →
  r ∈ logged (allocationError hash need want considered) →
  r ∈ logged (obtainAllocations c hash rplMin rplMax cur cand).
Proof.
  intros Hvf Hcur need want Hneed Hcase Hr.
  destruct (factors_exact rplMin rplMax cur Hvf Hcur) as [Hn Hw].
  unfold obtainAllocations. cbv zeta. rewrite Hn, Hw. fold need want.
  rewrite !logged_Debugf_then. do 4 apply list_elem_of_further.
  destruct Hvf as (Hpos & Hle & Hmax).
  destruct (Z.leb_spec want 0); [unfold need, want in *; lia|].
  destruct (Z.leb_spec need 0); [lia|].
  destruct Hcase as [[Hfew ->]|(Henough & Hrank & Hgot)].
  - destruct (Z.ltb_spec (Z.of_nat (size cand)) need); [|lia].
    rewrite logged_bind. apply elem_of_app. by left.
  - destruct (Z.ltb_spec (Z.of_nat (size cand)) need); [lia|].
    rewrite Hrank, logged_Debugf_then. apply list_elem_of_further.
    destruct (Z.ltb_spec (len considered) need); [|lia].
    rewrite logged_bind. apply elem_of_app. by left.
Qed.

(** C3 (as amended). When [allocate] fails because [need > 0] and the valid
    candidates, or the peers ranked by the allocator, are fewer than [need],
    the error it returns is a message that carries the needed count, the
    wanted count and the number of peers considered; the CID and the peers
    considered are written to the error log. *)
Theorem allocate_insufficient_candidates (c : Cluster) (now : nat → Time)
    (hash : Cid) (rplMin rplMax : Z) (blacklist : list PeerID)
    (metrics : list Metric) (cur cand : gmap PeerID Metric)
    (considered : list PeerID) :
  getInformerMetrics c = Ok metrics →
  len metrics ≤ int_max →
  valid_factors rplMin rplMax →
  partition c now hash blacklist metrics = Some (cur, cand) →
  let need := rplMin - Z.of_nat (size cur) in
  let want := rplMax - Z.of_nat (size cur) in
  0 < need →
  (Z.of_nat (size cand) < need ∧ considered = range_keys cand) ∨
  (need ≤ Z.of_nat (size cand) ∧
   allocator_Allocate c hash cur cand = Ok considered ∧
   len considered < need) →
  let call := allocate c now hash rplMin rplMax blacklist in
  returned call
    = Some (None, Some (errors_New (not_enough_peers need want (len considered))))
  ∧ mkLog ERROR (Some "Not enough candidates to allocate %s:") [ACid hash]
      ∈ logged call
  ∧ ∀ p, p ∈ considered →
      mkLog ERROR (Some "    - %s") [AStr (peer_Pretty p)] ∈ logged call.
Proof.
  intros Hm Hlen Hvf Hp need want Hneed Hcase call.
  pose proof (partition_size _ _ _ _ _ _ _ Hp Hlen) as Hcur.
  split; [|split].
  - unfold call.
    rewrite (allocate_returned _ _ _ _ _ _ metrics Hm), Hp, option_bind_Some.
    rewrite obtainAllocations_decides by done.
    cbv zeta. fold need want. destruct Hvf as (Hpos & Hle & Hmax).
    destruct (Z.leb_spec want 0); [unfold need, want in *; lia|].
    destruct (Z.leb_spec need 0); [lia|].
    destruct Hcase as [[Hfew ->]|(Henough & Hrank & Hgot)].
    + destruct (Z.ltb_spec (Z.of_nat (size cand)) need); [|lia].
      by rewrite len_range_keys.
    + destruct (Z.ltb_spec (Z.of_nat (size cand)) need); [lia|].
      rewrite Hrank. destruct (Z.ltb_spec (len considered) need); [done|lia].
  - unfold call. rewrite (allocate_logged _ _ _ _ _ _ metrics cur cand Hm Hp).
    apply (obtainAllocations_logs_error _ _ _ _ _ _ considered); [done..|].
    rewrite allocationError_logged. apply elem_of_app. left.
    apply list_elem_of_here.
  - intros p Hin. unfold call.
    rewrite (allocate_logged _ _ _ _ _ _ metrics cur cand Hm Hp).
    apply (obtainAllocations_logs_error _ _ _ _ _ _ considered); [done..|].
    rewrite allocationError_logged. apply elem_of_app. right.
    apply list_elem_of_fmap. by exists p.
Qed.

End allocation_claims.

Section repeated_calls.
Import api ipfscluster notions.
Context {L : Libs} {H : Helpers}.

Lemma slice_to_length {A} (s t : list A) (hi : Z) :
  length s = length t →
  length <$> returned (slice_to s hi) = length <$> returned (slice_to t hi).
Proof.
  intros Hlen. unfold slice_to, len. rewrite Hlen.
  destruct ((hi <? 0) || (Z.of_nat (length t) <? hi)); [done|].
  simpl. by rewrite !length_take, Hlen.
Qed.

(** The outcome of a call does not depend on the order in which the maps
    are ranged over. *)
Lemma allocate_outcome_any_order (R1 R2 : MapRange) (c : Cluster)
    (now : nat → Time) (hash : Cid) (rplMin rplMax : Z)
    (blacklist : list PeerID) :
  outcome <$> returned (allocate (R := R1) c now hash rplMin rplMax blacklist)
  = outcome <$> returned (allocate (R := R2) c now hash rplMin rplMax blacklist).
Proof.
  destruct (getInformerMetrics c) as [metrics|err] eqn:Hm.
  - rewrite (allocate_returned (R := R1) _ _ _ _ _ _ metrics Hm).
    rewrite (allocate_returned (R := R2) _ _ _ _ _ _ metrics Hm).
    destruct (partition c now hash blacklist metrics) as [[cur cand]|];
      [|done].
    rewrite !option_bind_Some, !obtainAllocations_returned. cbv zeta.
    rewrite !(len_range_keys (R := R1)), !(len_range_keys (R := R2)).
    assert (Hcur : length (range_keys (MapRange := R1) cur)
                   = length (range_keys (MapRange := R2) cur)).
    { by rewrite !length_range_keys. }
    destruct (int_sub rplMax _ <=? 0).
    { pose proof (slice_to_length _ _
        (int_add (Z.of_nat (size cur)) (int_sub rplMax (Z.of_nat (size cur))))
        Hcur) as Hs.
      destruct (returned (slice_to (range_keys (MapRange := R1) cur) _)),
               (returned (slice_to (range_keys (MapRange := R2) cur) _));
        simpl in *; try done.
      unfold outcome. simpl. by injection Hs as ->. }
    destruct (int_sub rplMin _ <=? 0); [done|].
    destruct (_ <? _); [done|].
    destruct (allocator_Allocate c hash cur cand) as [final|err']; [|done].
    destruct (len final <? _); [done|].
    destruct (returned (slice_to final _)) as [s|]; [|done].
    rewrite !option_bind_Some. unfold outcome. simpl.
    by rewrite !length_app, Hcur.
  - unfold allocate. by rewrite Hm.
Qed.

(** [Discard] logs nothing, so two calls of it that return alike are
    alike. *)
Lemma Discard_silent (t : Time) (m : Metric) :
  Discard t m = ([], returned (Discard t m)).
Proof.
  unfold Discard, Expired. destruct (negb (Metric_Valid m)); [done|].
  destruct (decide _); [done|]. by destruct (time_Parse _).
Qed.

(** When [Discard] answers alike at the readings of two clocks, the loop
    divides the metrics alike. *)
Lemma divideMetrics_same_verdicts (now1 now2 : nat → Time)
    (blacklist current : list PeerID) (metrics : list Metric) :
  ∀ (i : nat) (cur cand : gmap PeerID Metric),
    (∀ j m, metrics !! j = Some m →
       returned (Discard (now1 (i + j)%nat) m)
       = returned (Discard (now2 (i + j)%nat) m)) →
    divideMetrics now1 i metrics blacklist current cur cand
    = divideMetrics now2 i metrics blacklist current cur cand.
Proof.
  induction metrics as [|m rest IH]; intros i cur cand Hsame; [done|].
  cbn [divideMetrics].
  assert (Hhere : Discard (now1 i) m = Discard (now2 i) m).
  { rewrite (Discard_silent (now1 i)), (Discard_silent (now2 i)).
    f_equal. specialize (Hsame 0%nat m eq_refl).
    by replace (i + 0)%nat with i in Hsame by lia. }
  assert (Hrest : ∀ cur0 cand0,
    divideMetrics now1 (S i) rest blacklist current cur0 cand0
    = divideMetrics now2 (S i) rest blacklist current cur0 cand0).
  { intros cur0 cand0. apply IH. intros j m0 Hj.
    specialize (Hsame (S j) m0 Hj).
    by replace (i + S j)%nat with (S i + j)%nat in Hsame by lia. }
  rewrite Hhere. destruct (Discard (now2 i) m) as [l [d|]]; [|done].
  unfold mbind, Go_bind, go_bind.
  destruct (d || _); [by rewrite Hrest|].
  destruct (containsPeer current _); by rewrite Hrest.
Qed.

(** With the same verdicts on the metrics, the clock read makes no
    difference to a call. *)
Lemma allocate_same_verdicts (R : MapRange) (c : Cluster)
    (now1 now2 : nat → Time) (hash : Cid) (rplMin rplMax : Z)
    (blacklist : list PeerID) :
  (∀ metrics, getInformerMetrics c = Ok metrics →
              same_verdicts now1 now2 metrics) →
  allocate (R := R) c now1 hash rplMin rplMax blacklist
  = allocate (R := R) c now2 hash rplMin rplMax blacklist.
Proof.
  intros Hsame. unfold allocate.
  destruct (getInformerMetrics c) as [metrics|err]; [|done].
  rewrite (divideMetrics_same_verdicts now1 now2); [done|].
  intros j m Hj. by apply (Hsame metrics).
Qed.

(** The lists returned under two iteration orders hold the same peers, up
    to order, when the allocation is expanded; when peers are dropped, both
    are made of current allocations. *)
Lemma allocate_lists_any_order (R1 R2 : MapRange) (c : Cluster)
    (now : nat → Time) (hash : Cid) (rplMin rplMax : Z)
    (blacklist : list PeerID) (l1 l2 : list PeerID) (e1 e2 : option error) :
  returned (allocate (R := R1) c now hash rplMin rplMax blacklist)
    = Some (Some l1, e1) →
  returned (allocate (R := R2) c now hash rplMin rplMax blacklist)
    = Some (Some l2, e2) →
  l1 ≡ₚ l2 ∨ ∀ p, p ∈ l1 ++ l2 → p ∈ getCurrentAllocations c hash.
Proof.
  destruct (getInformerMetrics c) as [metrics|err] eqn:Hm.
  - rewrite (allocate_returned (R := R1) _ _ _ _ _ _ metrics Hm).
    rewrite (allocate_returned (R := R2) _ _ _ _ _ _ metrics Hm).
    destruct (partition c now hash blacklist metrics) as [[cur cand]|] eqn:Hp;
      [|discriminate].
    rewrite !option_bind_Some, !obtainAllocations_returned. cbv zeta.
    rewrite !(len_range_keys (R := R1)), !(len_range_keys (R := R2)).
    destruct (int_sub rplMax _ <=? 0).
    { destruct (returned (slice_to (range_keys (MapRange := R1) cur) _))
        as [s1|] eqn:Hs1; [|discriminate].
      destruct (returned (slice_to (range_keys (MapRange := R2) cur) _))
        as [s2|] eqn:Hs2; [|discriminate].
      rewrite !option_bind_Some. intros [= <- <-] [= <- <-].
      apply slice_to_inv in Hs1 as [_ ->]. apply slice_to_inv in Hs2 as [_ ->].
      right. intros p Hin.
      assert (Hcur : is_Some (cur !! p)).
      { apply elem_of_app in Hin as [Hin|Hin];
          apply elem_of_take in Hin as (i & Hi & _);
          apply list_elem_of_lookup_2 in Hi.
        - by apply (elem_of_range_keys (R := R1)) in Hi.
        - by apply (elem_of_range_keys (R := R2)) in Hi. }
      by apply (partition_current _ _ _ _ _ _ cand _ Hp) in Hcur as (? & _). }
    destruct (int_sub rplMin _ <=? 0); [discriminate|].
    destruct (_ <? _); [discriminate|].
    destruct (allocator_Allocate c hash cur cand) as [final|err'].
    + destruct (len final <? _); [discriminate|].
      destruct (returned (slice_to final _)) as [s|]; [|discriminate].
      rewrite !option_bind_Some. intros [= <- <-] [= <- <-].
      left. apply Permutation_app_tail.
      by rewrite (range_keys_perm (MapRange := R1)),
                 (range_keys_perm (MapRange := R2)).
    + destruct (returned (logError _)); discriminate.
  - unfold allocate. rewrite Hm. discriminate.
Qed.

(** C4 (as amended). [allocate] reads the state and never writes it: when
    it is invoked twice in a row with the same arguments against unchanged
    state and metrics, and no metric passes from usable to discarded
    between the two readings of the clock, the second call has the outcome
    of the first (the same error, a nil list or a list of the same length),
    whatever the iteration order of the maps in either call; so the second
    call returns nil exactly when the first one did. Two lists returned
    hold the same peers up to order, unless peers are dropped from an
    over-replicated allocation: the peers kept are then current
    allocations, chosen by the iteration order of each call. *)
Theorem allocate_twice_same_outcome (R1 R2 : MapRange) (c : Cluster)
    (now1 now2 : nat → Time) (hash : Cid) (rplMin rplMax : Z)
    (blacklist : list PeerID) (first : option (list PeerID) * option error) :
  (∀ metrics, getInformerMetrics c = Ok metrics →
              same_verdicts now1 now2 metrics) →
  returned (allocate (R := R1) c now1 hash rplMin rplMax blacklist)
    = Some first →
  ∃ second,
    returned (allocate_twice R1 R2 c now1 now2 hash rplMin rplMax blacklist)
      = Some (first, second) ∧
    outcome second = outcome first ∧
    (second = (None, None) ↔ first = (None, None)) ∧
    (∀ l1 l2, first.1 = Some l1 → second.1 = Some l2 →
       l1 ≡ₚ l2 ∨ ∀ p, p ∈ l1 ++ l2 → p ∈ getCurrentAllocations c hash).
Proof.
  intros Hverdicts Hfirst.
  pose proof (allocate_outcome_any_order R1 R2 c now1 hash rplMin rplMax
                blacklist) as Hsame.
  rewrite (allocate_same_verdicts R2 c now1 now2 _ _ _ _ Hverdicts) in Hsame.
  rewrite Hfirst in Hsame.
  destruct (returned (allocate (R := R2) c now2 hash rplMin rplMax blacklist))
    as [second|] eqn:Hsecond; [|discriminate].
  assert (Ho : outcome second = outcome first).
  { change (Some (outcome first) = Some (outcome second)) in Hsame.
    congruence. }
  exists second. split; [|split; [exact Ho|split]].
  - unfold allocate_twice. go_returned. rewrite Hfirst, option_bind_Some.
    go_returned. by rewrite Hsecond.
  - destruct first as [[l1|] [e1|]], second as [[l2|] [e2|]];
      unfold outcome in Ho; simpl in Ho; split; congruence.
  - intros l1 l2 H1 H2. destruct first as [f1 e1], second as [f2 e2].
    simpl in H1, H2. subst f1 f2.
    rewrite <- (allocate_same_verdicts R2 c now1 now2 _ _ _ _ Hverdicts)
      in Hsecond.
    exact (allocate_lists_any_order R1 R2 c now1 hash rplMin rplMax blacklist
             l1 l2 e1 e2 Hfirst Hsecond).
Qed.

End repeated_calls.

(* ===================================================================== *)
(** * The properties at concrete calls *)
(* ===================================================================== *)

Section concrete_calls.
Import api ipfscluster notions fixtures.

(** C1 fails on the code. With one current peer, usable, and
    [rplMin = rplMax = 1], the allocation is within bounds
    ([rplMin <= nCur <= rplMax]), yet [allocate] returns a list instead of
    nil: the test [wanted <= 0] takes the case [wanted == 0] into the branch
    meant for allocations above the maximum. *)
Theorem allocate_at_rplMax_rewrites :
  partition (L := libs) (cluster ["P1"] [usable "P1"] []) half_past QmC []
    [usable "P1"]
  = Some ({["P1" := usable "P1"]}, ∅) ∧
  returned (run (cluster ["P1"] [usable "P1"] []) QmC 1 1 [])
  = Some (Some ["P1"], None).
Proof. split; vm_compute; reflexivity. Qed.

(** The same at a larger scale: three current peers of which one is stale,
    [rplMin = 1], [rplMax = 2]; two current-valid peers meet the bounds and
    the allocation is still rewritten. *)
Example allocate_at_rplMax_drops_stale :
  returned (run (cluster ["P1"; "P2"; "P3"]
                   [usable "P1"; stale "P2"; usable "P3"] []) QmC 1 2 [])
  = Some (Some ["P3"; "P1"], None).
Proof. vm_compute. reflexivity. Qed.

(** C3, as stated, fails: two failing calls for different CIDs and with
    different valid candidates return the very same error value, which
    therefore carries neither the CID nor the candidates. *)
Lemma allocationError_forgets_cid_and_peers :
  returned (run (cluster [] [usable "P1"] []) (Some "QmA") 2 3 [])
  = Some (None, Some (errors_New (not_enough_peers 2 3 1))) ∧
  returned (run (cluster [] [usable "P2"] []) (Some "QmB") 2 3 [])
  = Some (None, Some (errors_New (not_enough_peers 2 3 1))) ∧
  not_enough_peers 2 3 1
  = "not enough peers to allocate CID. Needed at least: 2. Wanted at most: 3. Valid candidates: 1. See logs for more info.".
Proof. repeat split; vm_compute; reflexivity. Qed.

(** C4, as stated, fails: in scenario S1 the first call, at half past
    twelve, returns a new allocation and, state and metrics being
    unchanged, so does the second, at a quarter to one. *)
Lemma allocate_twice_not_nil :
  returned (allocate_twice (L := libs) (H := helpers) key_order key_order
              (cluster [] (usable <$> ["P1"; "P2"; "P3"; "P4"; "P5"])
                 ["P3"; "P1"; "P5"; "P2"; "P4"])
              half_past quarter_to QmC 2 3 [])
  = Some ((Some ["P3"; "P1"; "P5"], None), (Some ["P3"; "P1"; "P5"], None)).
Proof. vm_compute. reflexivity. Qed.

(** Time alone can change the outcome: in scenario S3 the first call, at
    half past twelve, returns nil; the second, once the metrics have
    expired, fails for want of peers. *)
Example allocate_twice_metrics_expire :
  returned (allocate_twice (L := libs) (H := helpers) key_order key_order
              (cluster ["P1"; "P2"; "P3"] (usable <$> ["P1"; "P2"; "P3"]) [])
              half_past past_one QmC 2 4 [])
  = Some ((None, None),
          (None, Some (errors_New (not_enough_peers 2 4 0)))).
Proof. vm_compute. reflexivity. Qed.

(** Were the list returned in S1 committed as the allocation of the CID, a
    further call would find three current-valid peers for [rplMax = 3] and,
    [wanted] being 0, return a list once more. *)
Example allocate_after_commit_at_rplMax :
  returned (run (cluster ["P3"; "P1"; "P5"]
                   (usable <$> ["P1"; "P2"; "P3"; "P4"; "P5"])
                   ["P2"; "P4"]) QmC 2 3 [])
  = Some (Some ["P3"; "P5"; "P1"], None).
Proof. vm_compute. reflexivity. Qed.

(** The general theorems, applied to the scenarios. *)

Lemma allocate_no_leader_witness :
  consensus_Leader (leaderless [] [usable "P1"] []) = Err (errors_New "no leader") ∧
  getInformerMetrics (leaderless [] [usable "P1"] [])
  = Err (errors_New "cannot determine leading Monitor") ∧
  run (leaderless [] [usable "P1"] []) QmC 2 3 []
  = go_ret (None, Some (errors_New "cannot determine leading Monitor")).
Proof.
  split; [reflexivity|].
  apply (allocate_no_leader (L := libs) (R := key_order) (H := helpers)
           (leaderless [] [usable "P1"] []) half_past QmC 2 3 []
           (errors_New "no leader")).
  reflexivity.
Defined.

Lemma allocate_error_nil_list_witness :
  returned (run (cluster [] [usable "P1"] []) QmC 2 3 [])
  = Some (None, Some (errors_New (not_enough_peers 2 3 1))) ∧
  (None : option (list PeerID)) = None.
Proof.
  split; [vm_compute; reflexivity|].
  apply (allocate_error_nil_list (L := libs) (R := key_order) (H := helpers)
           (cluster [] [usable "P1"] []) half_past QmC 2 3 [] None
           (errors_New (not_enough_peers 2 3 1))).
  vm_compute. reflexivity.
Defined.

Lemma allocate_length_bounds_witness :
  valid_factors 2 3 ∧
  returned (run (cluster [] (usable <$> ["P1"; "P2"; "P3"; "P4"; "P5"])
                   ["P3"; "P1"; "P5"; "P2"; "P4"]) QmC 2 3 [])
  = Some (Some ["P3"; "P1"; "P5"], None) ∧
  2 ≤ len ["P3"; "P1"; "P5"] ≤ 3.
Proof.
  split; [unfold valid_factors, int_max; lia|].
  split; [vm_compute; reflexivity|].
  apply (allocate_length_bounds (L := libs) (R := key_order) (H := helpers)
           (cluster [] (usable <$> ["P1"; "P2"; "P3"; "P4"; "P5"])
              ["P3"; "P1"; "P5"; "P2"; "P4"])
           half_past QmC 2 3 [] (usable <$> ["P1"; "P2"; "P3"; "P4"; "P5"])
           ["P3"; "P1"; "P5"] None).
  - reflexivity.
  - unfold len, int_max. simpl. lia.
  - unfold valid_factors, int_max. lia.
  - vm_compute. reflexivity.
Defined.

Lemma allocate_expand_witness :
  ∃ valid new,
    returned (run (cluster ["P1"; "P2"]
                     [usable "P1"; stale "P2"; usable "P3"; usable "P4";
                      usable "P5"]
                     ["P4"; "P3"; "P5"]) QmC 3 3 [])
      = Some (Some (valid ++ new), None) ∧
    valid ≡ₚ (map_to_list ({["P1" := usable "P1"]} : gmap PeerID Metric)).*1 ∧
    new = take (Z.to_nat (Z.min (3 - 1) 3)) ["P4"; "P3"; "P5"] ∧
    len new = Z.min (3 - 1) 3 ∧
    valid `prefix_of` valid ++ new.
Proof.
  change 1 with (Z.of_nat (size ({["P1" := usable "P1"]} : gmap PeerID Metric))).
  change (Z.min ?a 3) with (Z.min a (len ["P4"; "P3"; "P5"])).
  apply (allocate_expand (L := libs) (R := key_order) (H := helpers)
           (cluster ["P1"; "P2"]
              [usable "P1"; stale "P2"; usable "P3"; usable "P4"; usable "P5"]
              ["P4"; "P3"; "P5"])
           half_past QmC 3 3 []
           [usable "P1"; stale "P2"; usable "P3"; usable "P4"; usable "P5"]
           {["P1" := usable "P1"]}
           (list_to_map [("P3", usable "P3"); ("P4", usable "P4");
                         ("P5", usable "P5")])
           ["P4"; "P3"; "P5"]).
  - reflexivity.
  - unfold len, int_max. simpl. lia.
  - unfold valid_factors, int_max. lia.
  - vm_compute. reflexivity.
  - vm_compute. reflexivity.
  - vm_compute. discriminate.
  - reflexivity.
  - vm_compute. discriminate.
Defined.

Lemma choosy_cluster_ranks_candidates_only (current : list PeerID)
    (metrics : list Metric) (preference : list PeerID) :
  ranks_candidates_only (choosy_cluster current metrics preference).
Proof.
  intros hash cur cand ranked [= <-] p Hp.
  unfold by_preference in Hp. by apply list_elem_of_filter in Hp as [? _].
Defined.

(** C7, as stated, fails in two ways. At noon exactly the metric
    [stale "P1"], which expires at noon and is the only metric of P1, is
    expired in the words of the specification, and P1 is returned. And
    with two metrics for P1, the first of them invalid, P1 is returned
    although it has a discarded metric. In both calls the allocator ranks
    candidates only. *)
Lemma allocate_returns_peers_with_discarded_metrics :
  (ranks_candidates_only
     (choosy_cluster [] [stale "P1"; usable "P2"] ["P1"; "P2"]) ∧
   returned (allocate (L := libs) (R := key_order) (H := helpers)
               (choosy_cluster [] [stale "P1"; usable "P2"] ["P1"; "P2"])
               at_noon QmC 2 2 [])
   = Some (Some ["P1"; "P2"], None) ∧
   expired_by_the_spec (L := libs) noon (stale "P1")) ∧
  (ranks_candidates_only
     (choosy_cluster [] [invalid "P1"; usable "P1"; usable "P2"]
        ["P1"; "P2"]) ∧
   returned (run (choosy_cluster [] [invalid "P1"; usable "P1"; usable "P2"]
                    ["P1"; "P2"]) QmC 2 2 [])
   = Some (Some ["P1"; "P2"], None) ∧
   has_discarded_metric (L := libs) half_past
     [invalid "P1"; usable "P1"; usable "P2"] "P1").
Proof.
  split; (split; [apply choosy_cluster_ranks_candidates_only|]);
    (split; [vm_compute; reflexivity|]).
  - right. exists noon. split; [reflexivity|]. reflexivity.
  - exists 0%nat, (invalid "P1"). repeat split.
Qed.

Lemma allocate_excludes_blacklisted_and_discarded_witness :
  returned (run (choosy_cluster []
                   [usable "P1"; stale "P2"; invalid "P3"; usable "P4"]
                   ["P4"; "P3"; "P2"; "P1"]) QmC 1 2 ["P4"])
  = Some (Some ["P1"], None) ∧
  one_metric_per_peer [usable "P1"; stale "P2"; invalid "P3"; usable "P4"] ∧
  ("P1" ∉ ["P4"]) ∧
  has_usable_metric (L := libs) half_past
    [usable "P1"; stale "P2"; invalid "P3"; usable "P4"] "P1" ∧
  (∃ i m exp,
     [usable "P1"; stale "P2"; invalid "P3"; usable "P4"] !! i = Some m ∧
     Metric_Peer m = "P1" ∧ Metric_Valid m = true ∧
     time_Parse (Libs := libs) (Metric_Expire m) = Some exp ∧
     half_past i ≤ exp) ∧
  ¬ has_discarded_metric (L := libs) half_past
      [usable "P1"; stale "P2"; invalid "P3"; usable "P4"] "P1".
Proof.
  assert (Hone : one_metric_per_peer
                   [usable "P1"; stale "P2"; invalid "P3"; usable "P4"]).
  { apply (bool_decide_unpack _). vm_compute. exact I. }
  split; [vm_compute; reflexivity|]. split; [exact Hone|].
  destruct (allocate_excludes_blacklisted_and_discarded
              (L := libs) (R := key_order) (H := helpers)
              (choosy_cluster []
                 [usable "P1"; stale "P2"; invalid "P3"; usable "P4"]
                 ["P4"; "P3"; "P2"; "P1"])
              half_past QmC 1 2 ["P4"]
              [usable "P1"; stale "P2"; invalid "P3"; usable "P4"]
              ["P1"] None "P1") as (Hbl & Husable & Hvalid & Hnone).
  - apply choosy_cluster_ranks_candidates_only.
  - reflexivity.
  - vm_compute. reflexivity.
  - apply list_elem_of_here.
  - split; [exact Hbl|]. split; [exact Husable|]. split; [exact Hvalid|].
    exact (Hnone Hone).
Defined.

Lemma allocate_insufficient_candidates_witness :
  returned (run (cluster [] [usable "P1"] []) QmC 2 3 [])
    = Some (None, Some (errors_New (not_enough_peers 2 3 1)))
  ∧ mkLog ERROR (Some "Not enough candidates to allocate %s:") [ACid QmC]
      ∈ logged (run (cluster [] [usable "P1"] []) QmC 2 3 [])
  ∧ ∀ p, p ∈ ["P1"] →
      mkLog ERROR (Some "    - %s") [AStr (peer_Pretty (Libs := libs) p)]
        ∈ logged (run (cluster [] [usable "P1"] []) QmC 2 3 []).
Proof.
  change (not_enough_peers 2 3 1)
    with (not_enough_peers
            (2 - Z.of_nat (size (∅ : gmap PeerID Metric)))
            (3 - Z.of_nat (size (∅ : gmap PeerID Metric)))
            (len ["P1"])).
  apply (allocate_insufficient_candidates
           (L := libs) (R := key_order) (H := helpers)
           (cluster [] [usable "P1"] []) half_past QmC 2 3 [] [usable "P1"]
           ∅ {["P1" := usable "P1"]} ["P1"]).
  - reflexivity.
  - unfold len, int_max. simpl. lia.
  - unfold valid_factors, int_max. lia.
  - vm_compute. reflexivity.
  - vm_compute. reflexivity.
  - left. split; [vm_compute; reflexivity|vm_compute; reflexivity].
Defined.

Lemma allocate_twice_same_outcome_witness :
  ∃ second,
    returned (allocate_twice (L := libs) (H := helpers) key_order key_order_rev
                (cluster ["P1"; "P2"; "P3"; "P4"]
                   [usable "P1"; usable "P2"; usable "P3"; usable "P4";
                    stale "P5"] [])
                half_past quarter_to QmC 1 2 [])
      = Some ((Some ["P3"; "P1"], None), second) ∧
    outcome second = outcome (Some ["P3"; "P1"], None) ∧
    (second = (None, None) ↔
     (Some ["P3"; "P1"], None) = (None, None : option error)) ∧
    (∀ l1 l2, Some ["P3"; "P1"] = Some l1 → second.1 = Some l2 →
       l1 ≡ₚ l2 ∨ ∀ p, p ∈ l1 ++ l2 → p ∈ ["P1"; "P2"; "P3"; "P4"]).
Proof.
  apply (allocate_twice_same_outcome (L := libs) (H := helpers)
           key_order key_order_rev
           (cluster ["P1"; "P2"; "P3"; "P4"]
              [usable "P1"; usable "P2"; usable "P3"; usable "P4";
               stale "P5"] [])
           half_past quarter_to QmC 1 2 [] (Some ["P3"; "P1"], None)).
  - intros metrics [= <-] i m Hi.
    do 5 (destruct i as [|i]; [injection Hi as <-; reflexivity|]).
    discriminate.
  - vm_compute. reflexivity.
Defined.

End concrete_calls.

(* ===================================================================== *)
(** * api/types.go: statuses and their names *)
(* ===================================================================== *)

Section status_facts.
Import status.
Context {O : RangeOrder}.

Lemma trackerStatusString_names_differ :
  NoDup (map_to_list trackerStatusString).*2.
Proof. apply (bool_decide_unpack _). vm_compute. exact I. Qed.

Lemma range_trackerStatusString (k : TrackerStatus) (v : string) :
  (k, v) ∈ range_entries trackerStatusString ↔ trackerStatusString !! k = Some v.
Proof. rewrite (range_entries_perm trackerStatusString). apply elem_of_map_to_list. Qed.

(** The loop returns the key of a name when names are pairwise distinct,
    wherever the entry sits. *)
Lemma TrackerStatusFromString_loop_finds
    (entries : list (TrackerStatus * string)) (k : TrackerStatus) (v : string) :
  NoDup entries.*2 → (k, v) ∈ entries →
  TrackerStatusFromString_loop entries v = k.
Proof.
  induction entries as [|[k' v'] rest IH]; intros Hnd Hin.
  - by apply elem_of_nil in Hin.
  - simpl in *. apply NoDup_cons in Hnd as [Hfresh Hnd].
    destruct (decide (v' = v)) as [->|Hne].
    + apply elem_of_cons in Hin as [[= -> ]|Hin]; [done|].
      exfalso. apply Hfresh. apply list_elem_of_fmap. by exists (k, v).
    + apply elem_of_cons in Hin as [[= -> ->]|Hin]; [done|]. by apply IH.
Qed.

Lemma TrackerStatusFromString_loop_misses
    (entries : list (TrackerStatus * string)) (str : string) :
  (∀ k, (k, str) ∉ entries) →
  TrackerStatusFromString_loop entries str = TrackerStatusBug.
Proof.
  induction entries as [|[k v] rest IH]; intros Hout; [done|].
  simpl. destruct (decide (v = str)) as [->|Hne].
  - exfalso. apply (Hout k). apply list_elem_of_here.
  - apply IH. intros k' Hin. apply (Hout k'). by apply list_elem_of_further.
Qed.

Lemma TrackerStatusFromString_of_name (st : TrackerStatus) (name : string) :
  trackerStatusString !! st = Some name → TrackerStatusFromString name = st.
Proof.
  intros Hst. unfold TrackerStatusFromString.
  apply TrackerStatusFromString_loop_finds.
  - rewrite (range_entries_perm trackerStatusString).
    apply trackerStatusString_names_differ.
  - by apply range_trackerStatusString.
Qed.

Lemma TrackerStatusFromString_of_other (str : string) :
  (∀ st, trackerStatusString !! st ≠ Some str) →
  TrackerStatusFromString str = TrackerStatusBug.
Proof.
  intros Hout. unfold TrackerStatusFromString.
  apply TrackerStatusFromString_loop_misses.
  intros k Hin. by apply range_trackerStatusString, Hout in Hin.
Qed.

(** The table has exactly the keys 0 to 8. *)
Lemma trackerStatusString_keys (st : TrackerStatus) :
  is_Some (trackerStatusString !! st) ↔ 0 ≤ st ≤ 8.
Proof.
  split.
  - intros [name Hname]. unfold trackerStatusString in Hname.
    apply elem_of_list_to_map_2, list_elem_of_In in Hname. simpl in Hname.
    repeat (destruct Hname as [Heq|Hname];
            [injection Heq as <- _; vm_compute; split; discriminate|]).
    done.
  - intros Hst.
    assert (Hcase : st = 0 ∨ st = 1 ∨ st = 2 ∨ st = 3 ∨ st = 4 ∨ st = 5
                    ∨ st = 6 ∨ st = 7 ∨ st = 8) by lia.
    destruct Hcase as [->|[->|[->|[->|[->|[->|[->|[->| ->]]]]]]]];
      by eexists.
Qed.

Lemma TrackerStatus_String_unknown (st : TrackerStatus) :
  ¬ (0 ≤ st ≤ 8) → TrackerStatus_String st = "".
Proof.
  intros Hst. unfold TrackerStatus_String.
  destruct (trackerStatusString !! st) as [name|] eqn:Hname; [|done].
  exfalso. apply Hst, trackerStatusString_keys. by eexists.
Qed.

Lemma TrackerStatus_roundtrip_known (st : TrackerStatus) :
  0 ≤ st ≤ 8 → TrackerStatusFromString (TrackerStatus_String st) = st.
Proof.
  intros Hst. apply trackerStatusString_keys in Hst as [name Hname].
  unfold TrackerStatus_String. rewrite Hname. simpl.
  by apply TrackerStatusFromString_of_name.
Qed.

Lemma TrackerStatus_roundtrip_unknown (st : TrackerStatus) :
  ¬ (0 ≤ st ≤ 8) →
  TrackerStatusFromString (TrackerStatus_String st) = TrackerStatusBug.
Proof.
  intros Hst. rewrite TrackerStatus_String_unknown by done.
  apply TrackerStatusFromString_of_other.
  intros st' Hst'.
  assert (Hvals : "" ∉ (map_to_list trackerStatusString).*2).
  { apply (bool_decide_unpack _). vm_compute. exact I. }
  apply Hvals. apply list_elem_of_fmap. exists (st', "").
  split; [done|]. by apply elem_of_map_to_list.
Qed.

(** X1. The name of each of the nine tracker statuses parses back to that
    status, in whatever order the table is ranged over; a status outside
    the table has the empty name and comes back as [TrackerStatusBug]. *)
Theorem TrackerStatus_String_FromString (st : TrackerStatus) :
  (0 ≤ st ≤ 8 → TrackerStatusFromString (TrackerStatus_String st) = st) ∧
  (¬ (0 ≤ st ≤ 8) →
   TrackerStatus_String st = "" ∧
   TrackerStatusFromString (TrackerStatus_String st) = TrackerStatusBug).
Proof.
  split.
  - apply TrackerStatus_roundtrip_known.
  - intros Hst. split.
    + by apply TrackerStatus_String_unknown.
    + by apply TrackerStatus_roundtrip_unknown.
Qed.

(** X2. Parsing a string gives one of the nine statuses: the one it names,
    in whatever order the table is ranged over, and [TrackerStatusBug] for
    a string that names none, so that printing the parsed status gives the
    string back exactly when it is a name of the table. *)
Theorem TrackerStatusFromString_String (str : string) :
  0 ≤ TrackerStatusFromString str ≤ 8 ∧
  ((∀ st, trackerStatusString !! st ≠ Some str) →
   TrackerStatusFromString str = TrackerStatusBug) ∧
  (TrackerStatus_String (TrackerStatusFromString str) = str ↔
   ∃ st, trackerStatusString !! st = Some str).
Proof.
  destruct (decide (str ∈ (map_to_list trackerStatusString).*2))
    as [Hin|Hnone].
  - apply list_elem_of_fmap in Hin as ([st str'] & -> & Hst).
    apply elem_of_map_to_list in Hst. simpl in *.
    rewrite (TrackerStatusFromString_of_name st str' Hst).
    split; [apply trackerStatusString_keys; by eexists|].
    split; [intros Hout; by destruct (Hout st)|].
    unfold TrackerStatus_String. rewrite Hst. simpl. split; [|done].
    intros _. by exists st.
  - assert (Hout : ∀ st, trackerStatusString !! st ≠ Some str).
    { intros st Hst. apply Hnone. apply list_elem_of_fmap. exists (st, str).
      split; [done|]. by apply elem_of_map_to_list. }
    rewrite (TrackerStatusFromString_of_other str Hout).
    split; [unfold TrackerStatusBug; lia|]. split; [done|]. split.
    + intros Hbug. exists TrackerStatusBug. by rewrite <- Hbug.
    + intros [st Hst]. by destruct (Hout st).
Qed.

(** X3. A status parsed from a string of the IPFS daemon counts as pinned
    exactly for "direct" and "recursive"; "indirect" and every unknown
    string do not. *)
Theorem IsPinned_FromString (t : string) :
  IsPinned (IPFSPinStatusFromString t) = true ↔ t = "direct" ∨ t = "recursive".
Proof.
  unfold IPFSPinStatusFromString, IsPinned.
  destruct (decide (t = "indirect")) as [->|Hi].
  { split; [done|]. by intros [?|?]. }
  destruct (decide (t = "direct")) as [->|Hd]; [split; [by left|done]|].
  destruct (decide (t = "recursive")) as [->|Hr]; [split; [by right|done]|].
  split; [done|]. by intros [?|?].
Qed.

End status_facts.

(* ===================================================================== *)
(** * api/types.go: conversions *)
(* ===================================================================== *)

Section convert_facts.
Import api status convert.
Context {L : Libs} {E : Codecs} {O : RangeOrder}.

Lemma go_ret_bind {A B} (a : A) (k : A → Go B) : go_ret a ≫= k = k a.
Proof. unfold mbind, Go_bind, go_bind, go_ret. by destruct (k a). Qed.

(** The record that [StringsToPeers] logs for a string, if any. *)
Lemma StringsToPeers_spec (strs : list string) :
  returned (StringsToPeers strs)
  = Some ((λ s, (peer_IDB58Decode s).1) <$> strs) ∧
  logged (StringsToPeers strs)
  = omap (λ s, (λ e, mkLog ERROR None [AStr s; AErr e])
                 <$> (peer_IDB58Decode s).2) strs.
Proof.
  induction strs as [|p rest [IHr IHl]]; [done|].
  rewrite fmap_cons. cbn [StringsToPeers omap list_omap].
  destruct (peer_IDB58Decode p) as [id [e|]]; cbn [fst snd].
  - rewrite !returned_bind, !logged_bind, IHr, IHl. simpl.
    by rewrite app_nil_r.
  - rewrite !go_ret_bind, returned_bind, logged_bind, IHr, IHl. simpl.
    by rewrite app_nil_r.
Qed.

(** X4. [StringsToPeers] gives one peer per string, in order, and never
    fails: a string that does not decode yields whatever the decoder
    answered for it, and one error record in the log. *)
Theorem StringsToPeers_keeps_every_entry (strs : list string) :
  ∃ peers,
    returned (StringsToPeers strs) = Some peers ∧
    length peers = length strs ∧
    (∀ i s, strs !! i = Some s →
            peers !! i = Some (peer_IDB58Decode s).1) ∧
    logged (StringsToPeers strs)
    = omap (λ s, (λ e, mkLog ERROR None [AStr s; AErr e])
                   <$> (peer_IDB58Decode s).2) strs.
Proof.
  destruct (StringsToPeers_spec strs) as [Hr Hl].
  eexists. split; [exact Hr|]. split; [by rewrite length_fmap|].
  split; [|exact Hl].
  intros i s Hi. by rewrite list_lookup_fmap, Hi.
Qed.

Lemma ToPin_returned (pins : PinSerial) :
  returned (ToPin pins)
  = Some {| Pin_Cid := (cid_Decode (PinSerial_Cid pins)).1;
            Pin_Name := PinSerial_Name pins;
            Pin_Allocations :=
              (λ s, (peer_IDB58Decode s).1) <$> PinSerial_Allocations pins;
            Pin_ReplicationFactor :=
              if (PinSerial_ReplicationFactor pins =? 0)
                 && PinSerial_Everywhere pins
              then -1 else PinSerial_ReplicationFactor pins |}.
Proof.
  unfold ToPin.
  destruct (StringsToPeers_spec (PinSerial_Allocations pins)) as [Hr _].
  destruct (cid_Decode (PinSerial_Cid pins)) as [c [e|]];
    rewrite !returned_bind; simpl; by rewrite Hr.
Qed.

(** X5. A pin that is serialized and read back keeps its name, its
    replication factor (0 included: [ToSerial] never sets the legacy
    [Everywhere] flag) and the number of its allocations, whatever the
    encoders and decoders do. *)
Theorem ToPin_ToSerial_keeps_factor (pin : Pin) :
  PinSerial_Everywhere (Pin_ToSerial pin) = false ∧
  ∃ pin',
    returned (ToPin (Pin_ToSerial pin)) = Some pin' ∧
    Pin_Name pin' = Pin_Name pin ∧
    Pin_ReplicationFactor pin' = Pin_ReplicationFactor pin ∧
    length (Pin_Allocations pin') = length (Pin_Allocations pin).
Proof.
  split; [done|]. eexists. split; [apply ToPin_returned|]. simpl.
  split; [done|]. split.
  - by rewrite andb_false_r.
  - unfold PeersToStrings. by rewrite !length_fmap.
Qed.

Lemma StringsToPeers_PeersToStrings (peers : list PeerID) :
  Forall (λ p, p ≠ "" ∧ peer_IDB58Decode (peer_IDB58Encode p) = (p, None))
    peers →
  StringsToPeers (PeersToStrings peers) = go_ret peers.
Proof.
  induction 1 as [|p rest [Hne Hdec] _ IH]; [done|].
  change (PeersToStrings (p :: rest))
    with ((if decide (p = "") then "" else peer_IDB58Encode p)
            :: PeersToStrings rest).
  destruct (decide (p = "")); [done|].
  cbn [StringsToPeers]. rewrite Hdec, go_ret_bind, IH, go_ret_bind. done.
Qed.

(** X6. When the CID of a pin is not nil and decodes from its string, and
    the pin has at least one allocation (so that its slice is not nil),
    every allocation being a non-empty peer that decodes from its encoding,
    serializing the pin and reading it back gives the pin itself and logs
    nothing. A list stands for the elements of a slice: without an
    allocation the slice read back is the empty one of [make], whether the
    pin had nil or an empty slice. *)
Theorem ToPin_ToSerial_roundtrip (pin : Pin) :
  Pin_Cid pin ≠ None →
  cid_Decode (cid_String (Pin_Cid pin)) = (Pin_Cid pin, None) →
  Pin_Allocations pin ≠ [] →
  Forall (λ p, p ≠ "" ∧ peer_IDB58Decode (peer_IDB58Encode p) = (p, None))
    (Pin_Allocations pin) →
  ToPin (Pin_ToSerial pin) = go_ret pin.
Proof.
  intros Hcid Hdec _ Hpeers. destruct pin as [c n allocs rpl]. simpl in *.
  unfold ToPin, Pin_ToSerial. simpl.
  destruct c as [c|]; [|done]. rewrite Hdec, go_ret_bind.
  rewrite (StringsToPeers_PeersToStrings allocs Hpeers), go_ret_bind.
  by rewrite andb_false_r.
Qed.

Lemma ToPinInfo_returned (pis : PinInfoSerial) :
  returned (ToPinInfo pis)
  = Some {| PinInfo_Cid := (cid_Decode (PinInfoSerial_Cid pis)).1;
            PinInfo_Peer := (peer_IDB58Decode (PinInfoSerial_Peer pis)).1;
            PinInfo_Status := TrackerStatusFromString (PinInfoSerial_Status pis);
            PinInfo_TS := (time_Parse_RFC3339 (PinInfoSerial_TS pis)).1;
            PinInfo_Error := PinInfoSerial_Error pis |}.
Proof.
  unfold ToPinInfo.
  destruct (cid_Decode _) as [c [e1|]],
           (peer_IDB58Decode _) as [p [e2|]],
           (time_Parse_RFC3339 _) as [ts [e3|]];
    by rewrite !returned_bind.
Qed.

(** X7. A [PinInfo] that is serialized and read back keeps its error text
    and, when its status is one of the nine of the table, its status; any
    other status comes back as [TrackerStatusBug]. *)
Theorem ToPinInfo_ToSerial_status (pi : PinInfo) :
  ∃ pi',
    returned (ToPinInfo (PinInfo_ToSerial pi)) = Some pi' ∧
    PinInfo_Error pi' = PinInfo_Error pi ∧
    (0 ≤ PinInfo_Status pi ≤ 8 → PinInfo_Status pi' = PinInfo_Status pi) ∧
    (¬ (0 ≤ PinInfo_Status pi ≤ 8) → PinInfo_Status pi' = TrackerStatusBug).
Proof.
  eexists. split; [apply ToPinInfo_returned|]. simpl.
  split; [done|]. split.
  - apply TrackerStatus_roundtrip_known.
  - apply TrackerStatus_roundtrip_unknown.
Qed.

(** ** [GlobalPinInfo.ToSerial] *)

Lemma GlobalPinInfo_ToSerial_loop_lookup (entries : list (PeerID * PinInfo)) :
  ∀ (acc : gmap string PinInfoSerial) (p : PeerID),
    NoDup entries.*1 →
    (∀ q, q ∈ entries.*1 → peer_IDB58Encode q = peer_IDB58Encode p → q = p) →
    GlobalPinInfo_ToSerial_loop entries acc !! peer_IDB58Encode p
    = match list_to_map (M := gmap PeerID PinInfo) entries !! p with
      | Some v => Some (PinInfo_ToSerial v)
      | None => acc !! peer_IDB58Encode p
      end.
Proof.
  induction entries as [|[k v] rest IH]; intros acc p Hnd Hinj; [done|].
  simpl in *. apply NoDup_cons in Hnd as [Hfresh Hnd].
  rewrite IH; [|done|].
  - destruct (decide (k = p)) as [->|Hne].
    + rewrite lookup_insert_eq.
      rewrite (not_elem_of_list_to_map_1 (M := gmap PeerID)) by done.
      by rewrite lookup_insert_eq.
    + rewrite (lookup_insert_ne (list_to_map rest) k p v) by done.
      destruct (list_to_map rest !! p); [done|].
      rewrite lookup_insert_ne; [done|].
      intros Henc. apply Hne, Hinj; [apply list_elem_of_here|done].
  - intros q Hq. apply Hinj. by apply list_elem_of_further.
Qed.

Lemma GlobalPinInfo_ToSerial_loop_keys (entries : list (PeerID * PinInfo)) :
  ∀ (acc : gmap string PinInfoSerial) (s : string),
    is_Some (GlobalPinInfo_ToSerial_loop entries acc !! s) →
    is_Some (acc !! s) ∨ ∃ q, q ∈ entries.*1 ∧ s = peer_IDB58Encode q.
Proof.
  induction entries as [|[k v] rest IH]; intros acc s Hs; [by left|].
  simpl in *. destruct (IH _ _ Hs) as [Hacc|(q & Hq & ->)].
  - destruct (decide (peer_IDB58Encode k = s)) as [<-|Hne].
    + right. exists k. split; [apply list_elem_of_here|done].
    + left. by rewrite lookup_insert_ne in Hacc.
  - right. exists q. split; [by apply list_elem_of_further|done].
Qed.

(** X8. When no two peers of the map have the same encoding,
    [GlobalPinInfo.ToSerial] files the serial form of each peer's
    [PinInfo] under the encoding of that peer, and nothing else, in
    whatever order the map is ranged over. *)
Theorem GlobalPinInfo_ToSerial_entries (gpi : GlobalPinInfo) :
  (∀ p q, is_Some (GlobalPinInfo_PeerMap gpi !! p) →
          is_Some (GlobalPinInfo_PeerMap gpi !! q) →
          peer_IDB58Encode p = peer_IDB58Encode q → p = q) →
  let serial := GlobalPinInfoSerial_PeerMap (GlobalPinInfo_ToSerial gpi) in
  (∀ p v, GlobalPinInfo_PeerMap gpi !! p = Some v →
          serial !! peer_IDB58Encode p = Some (PinInfo_ToSerial v)) ∧
  (∀ s, is_Some (serial !! s) →
        ∃ p, is_Some (GlobalPinInfo_PeerMap gpi !! p) ∧
             s = peer_IDB58Encode p).
Proof.
  intros Hinj serial. unfold serial, GlobalPinInfo_ToSerial. simpl.
  set (m := GlobalPinInfo_PeerMap gpi) in *.
  assert (Hperm : range_entries m ≡ₚ map_to_list m)
    by apply range_entries_perm.
  assert (Hnd : NoDup (range_entries m).*1).
  { rewrite Hperm. apply NoDup_fst_map_to_list. }
  assert (Hkeys : ∀ q, q ∈ (range_entries m).*1 → is_Some (m !! q)).
  { intros q Hq. rewrite Hperm in Hq.
    apply list_elem_of_fmap in Hq as ([q' v] & -> & Hq).
    apply elem_of_map_to_list in Hq. by eexists. }
  split.
  - intros p v Hp.
    rewrite GlobalPinInfo_ToSerial_loop_lookup; [|done|].
    + assert (Hl : list_to_map (M := gmap PeerID PinInfo) (range_entries m) !! p
                   = Some v).
      { apply elem_of_list_to_map_1; [done|].
        rewrite Hperm. by apply elem_of_map_to_list. }
      by rewrite Hl.
    + intros q Hq Henc. apply Hinj; [by apply Hkeys|by eexists|done].
  - intros s Hs.
    apply GlobalPinInfo_ToSerial_loop_keys in Hs as [Hempty|(q & Hq & ->)].
    + rewrite lookup_empty in Hempty. by destruct Hempty.
    + exists q. split; [by apply Hkeys|done].
Qed.

End convert_facts.

(* ===================================================================== *)
(** * api/types.go: the time to live of a metric *)
(* ===================================================================== *)

Section ttl_facts.
Import api convert.
Context {L : Libs} {E : Codecs}.

Lemma Sub_negative (t u : Time) : Sub t u < 0 ↔ t < u.
Proof.
  unfold Sub. destruct (decide (int_min ≤ t - u ≤ int_max)) as [Hin|Hout].
  - lia.
  - unfold int_min, int_max in *.
    destruct (Z.ltb_spec t u); lia.
Qed.

Lemma Sub_exact (t u : Time) : is_int (t - u) → Sub t u = t - u.
Proof. unfold Sub, is_int. intros Hin. by destruct (decide _). Qed.

(** X9. A metric whose expiry was set with [SetTTLDuration(d)] at instant
    [t0] is not expired at any instant up to and including [t0 + d], and is
    expired at every later instant; this needs the formatted expiry to be
    read back as the same instant. *)
Theorem SetTTLDuration_then_Expired (m : Metric) (t0 : Time) (d : Duration)
    (t1 : Time) :
  time_Format_RFC3339Nano (Add t0 d) ≠ "" →
  time_Parse (time_Format_RFC3339Nano (Add t0 d)) = Some (Add t0 d) →
  returned (Expired t1 (SetTTLDuration t0 m d))
  = Some (bool_decide (t0 + d < t1)).
Proof.
  intros Hne Hparse. unfold Expired, SetTTLDuration. simpl.
  destruct (decide (_ = "")); [done|]. rewrite Hparse. simpl.
  f_equal. unfold After, Add.
  destruct (Z.ltb_spec (t0 + d) t1).
  - by rewrite bool_decide_eq_true_2.
  - rewrite bool_decide_eq_false_2; [done|lia].
Qed.

(** X10. [GetTTL] after [SetTTLDuration(d)] at instant [t0] answers, at
    instant [t1], the duration [d] less the time elapsed, as long as that
    fits a duration; read at [t0] itself it answers [d]. *)
Theorem SetTTLDuration_then_GetTTL (m : Metric) (t0 : Time) (d : Duration)
    (t1 : Time) :
  time_Format_RFC3339Nano (Add t0 d) ≠ "" →
  time_Parse (time_Format_RFC3339Nano (Add t0 d)) = Some (Add t0 d) →
  is_int (d - (t1 - t0)) →
  returned (GetTTL t1 (SetTTLDuration t0 m d)) = Some (d - (t1 - t0)).
Proof.
  intros Hne Hparse Hfit. unfold GetTTL, SetTTLDuration. simpl.
  destruct (decide (_ = "")); [done|]. rewrite Hparse. simpl.
  f_equal. unfold Add. rewrite Sub_exact.
  - lia.
  - by replace (t0 + d - t1) with (d - (t1 - t0)) by lia.
Qed.

(** X11. [SetTTL] takes whole seconds: for a number of seconds between
    -9223372036 and 9223372036 it is [SetTTLDuration] of that many times
    10^9 nanoseconds; outside this range the product wraps. *)
Theorem SetTTL_whole_seconds (m : Metric) (t0 : Time) (seconds : Z) :
  -9223372036 ≤ seconds ≤ 9223372036 →
  SetTTL t0 m seconds = SetTTLDuration t0 m (seconds * 10 ^ 9).
Proof.
  intros Hs. unfold SetTTL, int_mul, Second.
  rewrite int_wrap_small; [done|].
  unfold is_int, int_min, int_max. lia.
Qed.

(** X12. For a metric with a non-empty expiry, [Expired] answers true
    exactly when [GetTTL] answers a negative duration, and the two panic on
    the same metrics; with an empty expiry [Expired] answers true while
    [GetTTL] answers 0, as it does at the very instant of expiry, where
    [Expired] answers false. *)
Theorem Expired_iff_negative_GetTTL (now : Time) (m : Metric) :
  (Metric_Expire m ≠ "" →
   (returned (Expired now m) = Some true ↔
    ∃ d, returned (GetTTL now m) = Some d ∧ d < 0)) ∧
  (returned (Expired now m) = None ↔ returned (GetTTL now m) = None) ∧
  (Metric_Expire m = "" →
   returned (Expired now m) = Some true ∧ returned (GetTTL now m) = Some 0) ∧
  (Metric_Expire m ≠ "" → time_Parse (Metric_Expire m) = Some now →
   returned (Expired now m) = Some false ∧ returned (GetTTL now m) = Some 0).
Proof.
  unfold Expired, GetTTL, After.
  destruct (decide (Metric_Expire m = "")) as [He|He].
  - repeat split; try done.
  - destruct (time_Parse (Metric_Expire m)) as [exp|]; rewrite ?returned_ret.
    + split; [intros _; split|split; [done|split; [done|]]].
      * intros [= Hlt%Z.ltb_lt]. exists (Sub exp now). split; [done|].
        by apply Sub_negative.
      * intros (d & [= <-] & Hneg).
        apply (proj1 (Sub_negative exp now)) in Hneg.
        f_equal. by apply Z.ltb_lt.
      * intros _ [= ->]. split; [f_equal; apply Z.ltb_irrefl|].
        f_equal. rewrite Sub_exact; [lia|].
        unfold is_int, int_min, int_max. lia.
    + split; [intros _; split; [done|by intros (d & ? & _)]|].
      split; [done|]. split; [done|]. by intros _ ?.
Qed.

(** X13. [Discard] answers false exactly for a valid metric whose expiry is
    set, well-formed and not yet passed; for an invalid metric it answers
    true without reading the expiry, so a malformed expiry makes it panic
    only on a valid metric. *)
Theorem Discard_false_iff (now : Time) (m : Metric) :
  (returned (Discard now m) = Some false ↔
   Metric_Valid m = true ∧ Metric_Expire m ≠ "" ∧
   ∃ exp, time_Parse (Metric_Expire m) = Some exp ∧ now ≤ exp) ∧
  (Metric_Valid m = false → Discard now m = go_ret true) ∧
  (returned (Discard now m) = None ↔
   Metric_Valid m = true ∧ Metric_Expire m ≠ "" ∧
   time_Parse (Metric_Expire m) = None).
Proof.
  unfold Discard, Expired, After. destruct (Metric_Valid m); simpl.
  - destruct (decide (Metric_Expire m = "")) as [He|He].
    + split; [|split]; [split|done|split]; try done.
      * by intros (_ & ? & _).
      * by intros (_ & ? & _).
    + destruct (time_Parse (Metric_Expire m)) as [exp|];
        rewrite ?returned_ret.
      * split; [|split]; [split|done|split]; try done.
        -- intros [= Hge%Z.ltb_ge]. repeat split; [done|].
           exists exp. by split.
        -- intros (_ & _ & exp' & [= <-] & Hle). f_equal. by apply Z.ltb_ge.
        -- by intros (_ & _ & ?).
      * split; [|split]; [split|done|split]; try done.
        by intros (_ & _ & exp & ? & _).
  - split; [|split]; [split|done|split]; try done.
    + by intros (? & _).
    + by intros (? & _).
Qed.

End ttl_facts.

(* ===================================================================== *)
(** * Allocation: further properties *)
(* ===================================================================== *)

Section allocation_more.
Import api ipfscluster notions samples.
Context {L : Libs} {R : MapRange} {H : Helpers}.

(** ** The loop that divides the metrics, continued *)

(** The loop never removes a peer from a map, and it files every metric
    that is usable and not blacklisted. *)
Lemma divideMetrics_complete (now : nat → Time) (blacklist current : list PeerID)
    (metrics : list Metric) :
  ∀ (i : nat) (cur cand cur' cand' : gmap PeerID Metric),
    returned (divideMetrics now i metrics blacklist current cur cand)
      = Some (cur', cand') →
    (∀ p, is_Some (cur !! p) → is_Some (cur' !! p)) ∧
    (∀ p, is_Some (cand !! p) → is_Some (cand' !! p)) ∧
    (∀ j m, metrics !! j = Some m →
            returned (Discard (now (i + j)%nat) m) = Some false →
            Metric_Peer m ∉ blacklist →
            if decide (Metric_Peer m ∈ current)
            then is_Some (cur' !! Metric_Peer m)
            else is_Some (cand' !! Metric_Peer m)).
Proof.
  induction metrics as [|m rest IH]; intros i cur cand cur' cand'.
  - simpl. intros [= <- <-]. repeat split; [done..|]. by intros j m ?.
  - cbn [divideMetrics]. rewrite returned_bind.
    destruct (returned (Discard (now i) m)) as [d|] eqn:Hd; [|discriminate].
    rewrite option_bind_Some.
    assert (Hlater : ∀ cur0 cand0,
      returned (divideMetrics now (S i) rest blacklist current cur0 cand0)
        = Some (cur', cand') →
      ∀ j m0, rest !! j = Some m0 →
        returned (Discard (now (i + S j)%nat) m0) = Some false →
        Metric_Peer m0 ∉ blacklist →
        if decide (Metric_Peer m0 ∈ current)
        then is_Some (cur' !! Metric_Peer m0)
        else is_Some (cand' !! Metric_Peer m0)).
    { intros cur0 cand0 Hrun j m0 Hj Hm0 Hbl.
      destruct (IH _ _ _ _ _ Hrun) as (_ & _ & Hc).
      apply (Hc j m0 Hj); [|done].
      by replace (S i + j)%nat with (i + S j)%nat by lia. }
    destruct (d || containsPeer blacklist (Metric_Peer m)) eqn:Hskip.
    + intros Hrun. destruct (IH _ _ _ _ _ Hrun) as (Hm1 & Hm2 & _).
      split; [done|]. split; [done|].
      intros [|j] m0 Hj Hm0 Hbl; [|by eapply Hlater].
      injection Hj as <-. replace (i + 0)%nat with i in Hm0 by lia.
      rewrite Hd in Hm0. injection Hm0 as ->. simpl in Hskip.
      unfold containsPeer in Hskip. by apply bool_decide_eq_true in Hskip.
    + destruct (containsPeer current (Metric_Peer m)) eqn:Hcur;
        unfold containsPeer in Hcur.
      * apply bool_decide_eq_true in Hcur.
        intros Hrun. destruct (IH _ _ _ _ _ Hrun) as (Hm1 & Hm2 & _).
        split; [|split; [done|]].
        -- intros p Hp. apply Hm1. rewrite lookup_insert_is_Some.
           destruct (decide (Metric_Peer m = p)); [by left|by right].
        -- intros [|j] m0 Hj Hm0 Hbl; [|by eapply Hlater].
           injection Hj as <-. destruct (decide _); [|done].
           apply Hm1. by rewrite lookup_insert_eq.
      * apply bool_decide_eq_false in Hcur.
        intros Hrun. destruct (IH _ _ _ _ _ Hrun) as (Hm1 & Hm2 & _).
        split; [done|split].
        -- intros p Hp. apply Hm2. rewrite lookup_insert_is_Some.
           destruct (decide (Metric_Peer m = p)); [by left|by right].
        -- intros [|j] m0 Hj Hm0 Hbl; [|by eapply Hlater].
           injection Hj as <-. destruct (decide _); [done|].
           apply Hm2. by rewrite lookup_insert_eq.
Qed.

(** The loop returns when every valid metric has a well-formed expiry. *)
Lemma divideMetrics_returns (now : nat → Time) (blacklist current : list PeerID)
    (metrics : list Metric) :
  Forall (λ m, Metric_Valid m = true → Metric_Expire m ≠ "" →
               is_Some (time_Parse (Metric_Expire m))) metrics →
  ∀ (i : nat) (cur cand : gmap PeerID Metric),
    is_Some (returned (divideMetrics now i metrics blacklist current cur cand)).
Proof.
  induction 1 as [|m rest Hm _ IH]; intros i cur cand; [by eexists|].
  cbn [divideMetrics]. rewrite returned_bind.
  assert (Hd : is_Some (returned (Discard (now i) m))).
  { unfold Discard, Expired. destruct (Metric_Valid m); [|by eexists].
    simpl. destruct (decide (Metric_Expire m = "")); [by eexists|].
    destruct (Hm eq_refl n) as [exp ->]. by eexists. }
  destruct Hd as [d ->]. rewrite option_bind_Some.
  destruct (d || _); [apply IH|]. destruct (containsPeer current _); apply IH.
Qed.

(** The loop panics when a valid metric has a malformed expiry. *)
Lemma divideMetrics_panics (now : nat → Time) (blacklist current : list PeerID)
    (metrics : list Metric) (bad : Metric) :
  bad ∈ metrics →
  Metric_Valid bad = true → Metric_Expire bad ≠ "" →
  time_Parse (Metric_Expire bad) = None →
  ∀ (i : nat) (cur cand : gmap PeerID Metric),
    returned (divideMetrics now i metrics blacklist current cur cand) = None.
Proof.
  intros Hin Hvalid Hne Hparse.
  induction metrics as [|m rest IH]; intros i cur cand.
  - by apply elem_of_nil in Hin.
  - cbn [divideMetrics]. rewrite returned_bind.
    destruct (returned (Discard (now i) m)) as [d|] eqn:Hd; [|done].
    rewrite option_bind_Some.
    apply elem_of_cons in Hin as [<-|Hin].
    + unfold Discard, Expired in Hd. rewrite Hvalid in Hd. simpl in Hd.
      destruct (decide (Metric_Expire bad = "")); [done|].
      by rewrite Hparse in Hd.
    + destruct (d || _); [by apply IH|].
      destruct (containsPeer current _); by apply IH.
Qed.

Lemma partition_members (c : Cluster) (now : nat → Time) (hash : Cid)
    (blacklist : list PeerID) (metrics : list Metric)
    (cur cand : gmap PeerID Metric) (p : PeerID) :
  partition c now hash blacklist metrics = Some (cur, cand) →
  (is_Some (cur !! p) ↔
   p ∈ getCurrentAllocations c hash ∧ (p ∉ blacklist) ∧
   has_usable_metric now metrics p) ∧
  (is_Some (cand !! p) ↔
   (p ∉ getCurrentAllocations c hash) ∧ (p ∉ blacklist) ∧
   has_usable_metric now metrics p) ∧
  ¬ (is_Some (cur !! p) ∧ is_Some (cand !! p)).
Proof.
  intros Hp.
  pose proof (divideMetrics_complete _ _ _ _ _ _ _ _ _ Hp) as (_ & _ & Hc).
  split; [|split].
  - split; [by apply (partition_current _ _ _ _ _ _ cand)|].
    intros (Hcur & Hbl & j & m & Hj & <- & Hm).
    specialize (Hc j m Hj Hm Hbl). by destruct (decide _).
  - split; [by apply (partition_candidate _ _ _ _ _ cur)|].
    intros (Hcur & Hbl & j & m & Hj & <- & Hm).
    specialize (Hc j m Hj Hm Hbl). by destruct (decide _).
  - intros [H1 H2].
    apply (partition_current _ _ _ _ _ _ cand _ Hp) in H1 as (? & _).
    by apply (partition_candidate _ _ _ _ _ cur _ _ Hp) in H2 as (? & _).
Qed.

(** X14. The two maps that [allocate] builds hold exactly the peers that
    are not blacklisted and have a metric found usable: those of the
    current allocations in the first map, the others in the second; no peer
    is in both. *)
Theorem partition_exact (c : Cluster) (now : nat → Time) (hash : Cid)
    (blacklist : list PeerID) (metrics : list Metric)
    (cur cand : gmap PeerID Metric) (p : PeerID) :
  partition c now hash blacklist metrics = Some (cur, cand) →
  (is_Some (cur !! p) ↔
   p ∈ getCurrentAllocations c hash ∧ (p ∉ blacklist) ∧
   has_usable_metric now metrics p) ∧
  (is_Some (cand !! p) ↔
   (p ∉ getCurrentAllocations c hash) ∧ (p ∉ blacklist) ∧
   has_usable_metric now metrics p) ∧
  ¬ (is_Some (cur !! p) ∧ is_Some (cand !! p)).
Proof. apply partition_members. Qed.

(** X15. When the state cannot be read, [allocate] goes on as if nobody
    held the CID: no peer is current-valid, and every peer that is not
    blacklisted and has a usable metric is a candidate. *)
Theorem partition_without_state (c : Cluster) (now : nat → Time) (hash : Cid)
    (blacklist : list PeerID) (metrics : list Metric)
    (cur cand : gmap PeerID Metric) (err : error) :
  consensus_State c = Err err →
  partition c now hash blacklist metrics = Some (cur, cand) →
  getCurrentAllocations c hash = [] ∧
  cur = ∅ ∧
  ∀ p, is_Some (cand !! p) ↔
       (p ∉ blacklist) ∧ has_usable_metric now metrics p.
Proof.
  intros Hst Hp.
  assert (Hnone : getCurrentAllocations c hash = []).
  { unfold getCurrentAllocations. by rewrite Hst. }
  split; [done|]. split.
  - apply map_empty. intros p. apply eq_None_not_Some. intros Hin.
    apply (partition_members _ _ _ _ _ _ _ p Hp) in Hin as (Hcur & _).
    rewrite Hnone in Hcur. by apply elem_of_nil in Hcur.
  - intros p. destruct (partition_members _ _ _ _ _ _ _ p Hp) as (_ & Hcand & _).
    rewrite Hcand, Hnone. split; [by intros (_ & ? & ?)|].
    intros [? ?]. split; [apply not_elem_of_nil|done].
Qed.

(** X16. When the call to the monitor of the leader fails, [allocate]
    returns a nil list with the error of that call, unchanged, and logs
    nothing. *)
Theorem allocate_monitor_error (c : Cluster) (now : nat → Time) (hash : Cid)
    (rplMin rplMax : Z) (blacklist : list PeerID) (l : PeerID) (err : error) :
  consensus_Leader c = Ok l →
  rpcClient_Call c l "Cluster" "PeerMonitorLastMetrics" (informer_Name c)
    = Err err →
  allocate c now hash rplMin rplMax blacklist = go_ret (None, Some err).
Proof.
  intros Hl Hcall. unfold allocate, getInformerMetrics.
  by rewrite Hl, Hcall.
Qed.

(** X17. [allocate] returns nil with no error only when the number of
    current-valid peers is within the bounds. *)
Theorem allocate_nil_only_within_bounds (c : Cluster) (now : nat → Time)
    (hash : Cid) (rplMin rplMax : Z) (blacklist : list PeerID)
    (metrics : list Metric) (cur cand : gmap PeerID Metric) :
  getInformerMetrics c = Ok metrics →
  len metrics ≤ int_max →
  valid_factors rplMin rplMax →
  partition c now hash blacklist metrics = Some (cur, cand) →
  returned (allocate c now hash rplMin rplMax blacklist) = Some (None, None) →
  rplMin ≤ Z.of_nat (size cur) ≤ rplMax.
Proof.
  intros Hm Hlen Hvf Hp.
  rewrite (allocate_returned _ _ _ _ _ _ metrics Hm), Hp, option_bind_Some.
  rewrite obtainAllocations_decides by eauto using partition_size.
  cbv zeta.
  destruct (Z.leb_spec (rplMax - Z.of_nat (size cur)) 0); [discriminate|].
  destruct (Z.leb_spec (rplMin - Z.of_nat (size cur)) 0); [lia|].
  destruct (Z.ltb_spec (Z.of_nat (size cand)) (rplMin - Z.of_nat (size cur)));
    [discriminate|].
  destruct (allocator_Allocate c hash cur cand) as [final|e].
  - destruct (Z.ltb_spec (len final) (rplMin - Z.of_nat (size cur)));
      discriminate.
  - destruct (returned (logError _)); discriminate.
Qed.

(** X18. With more current-valid peers than [rplMax], [allocate] returns,
    with no error, exactly [rplMax] current-valid peers: the first ones in
    the order the map was ranged over. No candidate is added. *)
Theorem allocate_shrinks (c : Cluster) (now : nat → Time)
    (hash : Cid) (rplMin rplMax : Z) (blacklist : list PeerID)
    (metrics : list Metric) (cur cand : gmap PeerID Metric) :
  getInformerMetrics c = Ok metrics →
  len metrics ≤ int_max →
  valid_factors rplMin rplMax →
  partition c now hash blacklist metrics = Some (cur, cand) →
  rplMax < Z.of_nat (size cur) →
  ∃ A,
    returned (allocate c now hash rplMin rplMax blacklist) = Some (Some A, None) ∧
    len A = rplMax ∧
    A `prefix_of` range_keys cur ∧
    NoDup A ∧
    ∀ p, p ∈ A → is_Some (cur !! p) ∧ p ∈ getCurrentAllocations c hash.
Proof.
  intros Hm Hlen Hvf Hp Hover.
  exists (take (Z.to_nat rplMax) (range_keys cur)).
  split; [|split; [|split; [|split]]].
  - rewrite (allocate_returned _ _ _ _ _ _ metrics Hm), Hp, option_bind_Some.
    rewrite obtainAllocations_decides by eauto using partition_size.
    cbv zeta.
    destruct (Z.leb_spec (rplMax - Z.of_nat (size cur)) 0); [done|lia].
  - unfold len. rewrite length_take, length_range_keys.
    destruct Hvf as (? & ? & ?). lia.
  - apply prefix_take.
  - apply (sublist_NoDup _ (range_keys cur));
      [apply NoDup_range_keys|apply sublist_take].
  - intros p Hin. apply elem_of_take in Hin as (i & Hi & _).
    apply list_elem_of_lookup_2, elem_of_range_keys in Hi.
    split; [done|].
    by apply (partition_current _ _ _ _ _ _ cand _ Hp) in Hi as (? & _).
Qed.

(** Where the peers of a returned list come from. *)
Lemma allocate_members (c : Cluster) (now : nat → Time)
    (hash : Cid) (rplMin rplMax : Z) (blacklist : list PeerID)
    (metrics : list Metric) (cur cand : gmap PeerID Metric)
    (A : list PeerID) (e : option error) :
  getInformerMetrics c = Ok metrics →
  partition c now hash blacklist metrics = Some (cur, cand) →
  returned (allocate c now hash rplMin rplMax blacklist) = Some (Some A, e) →
  A `sublist_of` range_keys cur ∨
  ∃ ranked n,
    allocator_Allocate c hash cur cand = Ok ranked ∧
    A = range_keys cur ++ take n ranked.
Proof.
  intros Hm Hp.
  rewrite (allocate_returned _ _ _ _ _ _ metrics Hm), Hp, option_bind_Some.
  rewrite obtainAllocations_returned. cbv zeta.
  destruct (int_sub rplMax _ <=? 0).
  { destruct (returned (slice_to _ _)) as [s|] eqn:Hs; [|discriminate].
    rewrite option_bind_Some. intros [= <- <-].
    apply slice_to_inv in Hs as [_ ->]. left. apply sublist_take. }
  destruct (int_sub rplMin _ <=? 0); [discriminate|].
  destruct (_ <? _); [discriminate|].
  destruct (allocator_Allocate c hash cur cand) as [final|err].
  - destruct (len final <? _); [discriminate|].
    destruct (returned (slice_to _ _)) as [s|] eqn:Hs; [|discriminate].
    rewrite option_bind_Some. intros [= <- <-].
    apply slice_to_inv in Hs as [_ ->]. right. by eexists _, _.
  - destruct (returned (logError _)); discriminate.
Qed.

(** X19. Every peer of a returned list either is one of the current
    allocations, with a usable metric, or was ranked by the allocator in
    this call. *)
Theorem allocate_peers_provenance (c : Cluster) (now : nat → Time)
    (hash : Cid) (rplMin rplMax : Z) (blacklist : list PeerID)
    (metrics : list Metric) (A : list PeerID) (e : option error) (p : PeerID) :
  getInformerMetrics c = Ok metrics →
  returned (allocate c now hash rplMin rplMax blacklist) = Some (Some A, e) →
  p ∈ A →
  (p ∈ getCurrentAllocations c hash ∧ has_usable_metric now metrics p) ∨
  (∃ cur cand ranked,
     partition c now hash blacklist metrics = Some (cur, cand) ∧
     allocator_Allocate c hash cur cand = Ok ranked ∧ p ∈ ranked).
Proof.
  intros Hm Hret Hin.
  destruct (partition c now hash blacklist metrics) as [[cur cand]|] eqn:Hp.
  - destruct (allocate_members _ _ _ _ _ _ _ _ _ _ _ Hm Hp Hret)
      as [Hsub|(ranked & n & Hrank & ->)].
    + left. apply (elem_of_sublist _ _ _ Hin) in Hsub. rename Hsub into Hin'.
      clear Hin. rename Hin' into Hin.
      apply elem_of_range_keys in Hin.
      by apply (partition_current _ _ _ _ _ _ cand _ Hp) in Hin as (? & _ & ?).
    + apply elem_of_app in Hin as [Hold|Hnew].
      * left. apply elem_of_range_keys in Hold.
        by apply (partition_current _ _ _ _ _ _ cand _ Hp) in Hold
          as (? & _ & ?).
      * right. exists cur, cand, ranked. split; [done|]. split; [done|].
        apply elem_of_take in Hnew as (i & Hi & _).
        by apply list_elem_of_lookup_2 in Hi.
  - rewrite (allocate_returned _ _ _ _ _ _ metrics Hm), Hp in Hret.
    discriminate.
Qed.

(** X20. When the allocator ranks only candidates and ranks none twice, a
    returned list holds no peer twice. *)
Theorem allocate_no_duplicates (c : Cluster) (now : nat → Time)
    (hash : Cid) (rplMin rplMax : Z) (blacklist : list PeerID)
    (metrics : list Metric) (A : list PeerID) (e : option error) :
  ranks_candidates_only c →
  (∀ h current candidates ranked,
     allocator_Allocate c h current candidates = Ok ranked → NoDup ranked) →
  getInformerMetrics c = Ok metrics →
  returned (allocate c now hash rplMin rplMax blacklist) = Some (Some A, e) →
  NoDup A.
Proof.
  intros Hpolicy Honce Hm Hret.
  destruct (partition c now hash blacklist metrics) as [[cur cand]|] eqn:Hp.
  - destruct (allocate_members _ _ _ _ _ _ _ _ _ _ _ Hm Hp Hret)
      as [Hsub|(ranked & n & Hrank & ->)].
    + eapply sublist_NoDup; [apply NoDup_range_keys|exact Hsub].
    + apply NoDup_app. split; [apply NoDup_range_keys|]. split.
      * intros p Hold Hnew.
        apply elem_of_range_keys in Hold.
        apply elem_of_take in Hnew as (i & Hi & _).
        apply list_elem_of_lookup_2 in Hi.
        pose proof (Hpolicy _ _ _ _ Hrank p Hi) as Hcand.
        by apply (partition_members _ _ _ _ _ _ _ p Hp).
      * eapply sublist_NoDup; [by eapply Honce|apply sublist_take].
  - rewrite (allocate_returned _ _ _ _ _ _ metrics Hm), Hp in Hret.
    discriminate.
Qed.

(** X21. Under its contract [allocate] returns, with a list or an error,
    provided every valid metric answered by the monitor has a well-formed
    expiry and [logError] returns. *)
Theorem allocate_returns (c : Cluster) (now : nat → Time)
    (hash : Cid) (rplMin rplMax : Z) (blacklist : list PeerID) :
  valid_factors rplMin rplMax →
  (∀ metrics, getInformerMetrics c = Ok metrics →
     len metrics ≤ int_max ∧
     Forall (λ m, Metric_Valid m = true → Metric_Expire m ≠ "" →
                  is_Some (time_Parse (Metric_Expire m))) metrics) →
  (∀ msg, is_Some (returned (logError msg))) →
  is_Some (returned (allocate c now hash rplMin rplMax blacklist)).
Proof.
  intros Hvf Hmetrics Hlog.
  destruct (getInformerMetrics c) as [metrics|err] eqn:Hm.
  - destruct (Hmetrics metrics eq_refl) as [Hlen Hwf].
    rewrite (allocate_returned _ _ _ _ _ _ metrics Hm). unfold partition.
    destruct (divideMetrics_returns now blacklist
                (getCurrentAllocations c hash) metrics Hwf 0%nat ∅ ∅)
      as [[cur cand] Hp].
    rewrite Hp, option_bind_Some.
    rewrite obtainAllocations_decides by eauto using partition_size.
    cbv zeta.
    destruct (_ <=? 0); [by eexists|].
    destruct (_ <=? 0); [by eexists|].
    destruct (_ <? _); [by eexists|].
    destruct (allocator_Allocate c hash cur cand) as [final|e].
    + destruct (_ <? _); by eexists.
    + destruct (Hlog (Error e)) as [e' ->]. by eexists.
  - unfold allocate. rewrite Hm. by eexists.
Qed.

(** X22. One valid metric with a malformed expiry among those answered by
    the monitor makes [allocate] panic, whichever peer it is about,
    blacklisted or not. *)
Theorem allocate_panics_on_malformed_expiry (c : Cluster) (now : nat → Time)
    (hash : Cid) (rplMin rplMax : Z) (blacklist : list PeerID)
    (metrics : list Metric) (bad : Metric) :
  getInformerMetrics c = Ok metrics →
  bad ∈ metrics →
  Metric_Valid bad = true →
  Metric_Expire bad ≠ "" →
  time_Parse (Metric_Expire bad) = None →
  returned (allocate c now hash rplMin rplMax blacklist) = None.
Proof.
  intros Hm Hin Hvalid Hne Hparse.
  rewrite (allocate_returned _ _ _ _ _ _ metrics Hm). unfold partition.
  by rewrite (divideMetrics_panics now blacklist _ metrics bad).
Qed.

(** X23. The allocator is consulted only to expand: when the current-valid
    peers reach [rplMin], or when the valid candidates are fewer than the
    peers needed, [allocate] does the same with any other allocator in
    place, log included. *)
Theorem allocate_ignores_allocator (c : Cluster) (now : nat → Time)
    (hash : Cid) (rplMin rplMax : Z) (blacklist : list PeerID)
    (metrics : list Metric) (cur cand : gmap PeerID Metric)
    (policy : Cid → gmap PeerID Metric → gmap PeerID Metric →
              result (list PeerID)) :
  getInformerMetrics c = Ok metrics →
  len metrics ≤ int_max →
  valid_factors rplMin rplMax →
  partition c now hash blacklist metrics = Some (cur, cand) →
  rplMin ≤ Z.of_nat (size cur) ∨
  Z.of_nat (size cand) < rplMin - Z.of_nat (size cur) →
  allocate (with_allocator c policy) now hash rplMin rplMax blacklist
  = allocate c now hash rplMin rplMax blacklist.
Proof.
  intros Hm Hlen Hvf Hp Hcase.
  pose proof (partition_size _ _ _ _ _ _ _ Hp Hlen) as Hcur.
  unfold allocate, partition in *.
  change (getInformerMetrics (with_allocator c policy))
    with (getInformerMetrics c).
  change (getCurrentAllocations (with_allocator c policy) hash)
    with (getCurrentAllocations c hash).
  rewrite Hm.
  destruct (divideMetrics now 0 metrics blacklist
              (getCurrentAllocations c hash) ∅ ∅) as [l [[cur' cand']|]];
    [|done].
  simpl in Hp. injection Hp as -> ->.
  unfold mbind, Go_bind, go_bind. f_equal.
  destruct (factors_exact rplMin rplMax cur Hvf Hcur) as [Hn Hw].
  unfold obtainAllocations. cbv zeta. rewrite Hn, Hw.
  destruct (Z.leb_spec (rplMax - Z.of_nat (size cur)) 0); [done|].
  destruct (Z.leb_spec (rplMin - Z.of_nat (size cur)) 0); [done|].
  destruct (Z.ltb_spec (Z.of_nat (size cand)) (rplMin - Z.of_nat (size cur)));
    [done|lia].
Qed.

(** X24. [allocate] is not to be called with the -1 that stands for
    "everywhere" in a pin: with a negative [rplMax] (and no overflow in
    [rplMax - nCur]) it panics on the bounds of the slice it returns,
    whatever the metrics. *)
Theorem allocate_panics_on_negative_rplMax (c : Cluster) (now : nat → Time)
    (hash : Cid) (rplMin rplMax : Z) (blacklist : list PeerID)
    (metrics : list Metric) :
  getInformerMetrics c = Ok metrics →
  rplMax < 0 →
  int_min ≤ rplMax - len metrics →
  returned (allocate c now hash rplMin rplMax blacklist) = None.
Proof.
  intros Hm Hneg Hlen.
  rewrite (allocate_returned _ _ _ _ _ _ metrics Hm).
  destruct (partition c now hash blacklist metrics) as [[cur cand]|] eqn:Hp;
    [|done].
  assert (Hcur : Z.of_nat (size cur) ≤ len metrics).
  { apply divideMetrics_sound in Hp as (_ & _ & Hsz).
    rewrite map_size_empty in Hsz. unfold len. lia. }
  rewrite option_bind_Some, obtainAllocations_returned. cbv zeta.
  rewrite !len_range_keys.
  assert (Hw : int_sub rplMax (Z.of_nat (size cur))
               = rplMax - Z.of_nat (size cur)).
  { apply int_wrap_small. unfold is_int, int_min, int_max in *. lia. }
  rewrite Hw.
  destruct (Z.leb_spec (rplMax - Z.of_nat (size cur)) 0); [|lia].
  assert (Hhi : int_add (Z.of_nat (size cur)) (rplMax - Z.of_nat (size cur))
                = rplMax).
  { unfold int_add. rewrite int_wrap_small; [lia|].
    unfold is_int, int_min, int_max in *. lia. }
  rewrite Hhi. unfold slice_to.
  destruct (Z.ltb_spec rplMax 0); [done|lia].
Qed.

End allocation_more.

(* ===================================================================== *)
(** * api/types.go: round trips of identities and pin infos *)
(* ===================================================================== *)

Section identity_facts.
Import api status convert identity.
Context {L : Libs} {E : Codecs} {O : RangeOrder} {M : MultiaddrLib}.

Lemma ToMultiaddrs_MultiaddrsToSerial (addrs : list Multiaddr) :
  Forall (λ a, a ≠ None ∧ ma_NewMultiaddr (ma_String a) = (a, None)) addrs →
  ToMultiaddrs (MultiaddrsToSerial addrs) = go_ret addrs.
Proof.
  induction 1 as [|a rest [Hne Hnew] _ IH]; [done|].
  change (MultiaddrsToSerial (a :: rest))
    with (match a with Some _ => MultiaddrToSerial a | None => "" end
            :: MultiaddrsToSerial rest).
  destruct a as [bytes|]; [|done].
  cbn [ToMultiaddrs]. unfold ToMultiaddr, MultiaddrToSerial.
  rewrite Hnew. cbn [log_if_err]. rewrite !go_ret_bind, IH, go_ret_bind. done.
Qed.

Lemma ToMultiaddr_returned (addrS : string) :
  returned (ToMultiaddr addrS) = Some (ma_NewMultiaddr addrS).1.
Proof.
  unfold ToMultiaddr. destruct (ma_NewMultiaddr addrS) as [a [e|]];
    by rewrite returned_bind.
Qed.

Lemma ToMultiaddrs_returned (addrsS : list string) :
  returned (ToMultiaddrs addrsS)
  = Some ((λ s, (ma_NewMultiaddr s).1) <$> addrsS).
Proof.
  induction addrsS as [|s rest IH]; [done|].
  rewrite fmap_cons. cbn [ToMultiaddrs].
  rewrite returned_bind, ToMultiaddr_returned, option_bind_Some.
  by rewrite returned_bind, IH.
Qed.

(** X25. An ID that does not decode is handled in two ways: [ToIPFSID]
    leaves the ID empty and logs nothing about it (its log is that of the
    addresses), while [ToID] keeps what the decoder answered and logs the
    error first. *)
Theorem undecodable_ID (ipfs : IPFSIDSerial) (ids : IDSerial)
    (p q : PeerID) (e e' : error) :
  peer_IDB58Decode (IPFSIDSerial_ID ipfs) = (p, Some e) →
  peer_IDB58Decode (IDSerial_ID ids) = (q, Some e') →
  (∃ id, returned (ToIPFSID ipfs) = Some id ∧ IPFSID_ID id = "" ∧
         logged (ToIPFSID ipfs)
         = logged (ToMultiaddrs (IPFSIDSerial_Addresses ipfs))) ∧
  (∃ id, returned (ToID ids) = Some id ∧ ID_ID id = q ∧
         head (logged (ToID ids))
         = Some (mkLog ERROR None [AStr (IDSerial_ID ids); AErr e'])).
Proof.
  intros Hipfs Hid. split.
  - unfold ToIPFSID. rewrite Hipfs, returned_bind, logged_bind.
    rewrite ToMultiaddrs_returned. simpl. eexists.
    split; [done|]. split; [done|]. by rewrite app_nil_r.
  - unfold ToID. rewrite Hid. cbn [log_if_err].
    rewrite !returned_bind, logged_bind, ToMultiaddrs_returned.
    destruct (StringsToPeers_spec (IDSerial_ClusterPeers ids)) as [Hr _].
    cbn [returned logger_Error snd]. rewrite option_bind_Some.
    rewrite option_bind_Some, returned_bind, Hr, option_bind_Some.
    rewrite returned_bind, ToMultiaddrs_returned, option_bind_Some.
    rewrite returned_bind. unfold ToIPFSID at 1.
    rewrite returned_bind, ToMultiaddrs_returned. simpl.
    eexists. split; [done|]. done.
Qed.

(** X26. An [ID] none of whose four slices is empty (so that none is nil),
    whose peers all decode from their encodings and whose addresses are all
    non-nil and parse from their strings, is given back, with nothing
    logged, by [ToSerial] followed by [ToID]. The ID of the IPFS daemon may
    be empty, provided the empty string does not decode to a peer. *)
Theorem ToID_ToSerial_roundtrip (id : ID) :
  ID_ID id ≠ "" →
  peer_IDB58Decode (peer_IDB58Encode (ID_ID id)) = (ID_ID id, None) →
  ID_Addresses id ≠ [] →
  ID_ClusterPeers id ≠ [] →
  ID_ClusterPeersAddresses id ≠ [] →
  IPFSID_Addresses (ID_IPFS id) ≠ [] →
  Forall (λ a, a ≠ None ∧ ma_NewMultiaddr (ma_String a) = (a, None))
    (ID_Addresses id ++ ID_ClusterPeersAddresses id
       ++ IPFSID_Addresses (ID_IPFS id)) →
  Forall (λ p, p ≠ "" ∧ peer_IDB58Decode (peer_IDB58Encode p) = (p, None))
    (ID_ClusterPeers id) →
  (if decide (IPFSID_ID (ID_IPFS id) = "")
   then (peer_IDB58Decode "").2 ≠ None ∨ (peer_IDB58Decode "").1 = ""
   else peer_IDB58Decode (peer_IDB58Encode (IPFSID_ID (ID_IPFS id)))
        = (IPFSID_ID (ID_IPFS id), None)) →
  ToID (ID_ToSerial id) = go_ret id.
Proof.
  intros Hne Hdec _ _ _ _ Haddrs Hpeers Hipfs.
  apply Forall_app in Haddrs as [Ha Haddrs].
  apply Forall_app in Haddrs as [Hb Hc].
  destruct id as [i a ps pa v cm rpc msg [ii ia ie] pn]. simpl in *.
  unfold ToID, ID_ToSerial. simpl.
  destruct (decide (i = "")); [done|]. rewrite Hdec. cbn [log_if_err].
  rewrite go_ret_bind.
  rewrite (ToMultiaddrs_MultiaddrsToSerial a Ha), go_ret_bind.
  rewrite (StringsToPeers_PeersToStrings ps Hpeers), go_ret_bind.
  rewrite (ToMultiaddrs_MultiaddrsToSerial pa Hb), go_ret_bind.
  assert (Hi : ToIPFSID (IPFSID_ToSerial (mkIPFSID ii ia ie))
               = go_ret (mkIPFSID ii ia ie)).
  { unfold ToIPFSID, IPFSID_ToSerial. simpl.
    rewrite (ToMultiaddrs_MultiaddrsToSerial ia Hc), go_ret_bind.
    destruct (decide (ii = "")) as [->|Hii].
    - destruct (peer_IDB58Decode "") as [p0 [e0|]]; [done|].
      simpl in Hipfs. destruct Hipfs as [?| ->]; done.
    - by rewrite Hipfs. }
  rewrite Hi, go_ret_bind. done.
Qed.

(** X27. A [PinInfo] with a non-nil CID, a non-empty peer, one of the nine
    statuses and a timestamp that parses from its RFC3339 form is given
    back, with nothing logged, by [ToSerial] followed by [ToPinInfo]. *)
Theorem ToPinInfo_ToSerial_roundtrip (pi : PinInfo) :
  PinInfo_Cid pi ≠ None →
  cid_Decode (cid_String (PinInfo_Cid pi)) = (PinInfo_Cid pi, None) →
  PinInfo_Peer pi ≠ "" →
  peer_IDB58Decode (peer_IDB58Encode (PinInfo_Peer pi))
  = (PinInfo_Peer pi, None) →
  time_Parse_RFC3339 (time_Format_RFC3339 (PinInfo_TS pi))
  = (PinInfo_TS pi, None) →
  0 ≤ PinInfo_Status pi ≤ 8 →
  ToPinInfo (PinInfo_ToSerial pi) = go_ret pi.
Proof.
  intros Hc Hcid Hp Hpeer Hts Hst.
  destruct pi as [c p st ts msg]. simpl in *.
  unfold ToPinInfo, PinInfo_ToSerial. simpl.
  destruct c as [c|]; [|done]. destruct (decide (p = "")); [done|].
  rewrite Hcid, Hpeer, Hts. cbn [log_if_err]. rewrite !go_ret_bind.
  by rewrite (TrackerStatus_roundtrip_known st Hst).
Qed.

(** ** [GlobalPinInfoSerial.ToGlobalPinInfo] after [GlobalPinInfo.ToSerial] *)

Lemma ToGlobalPinInfo_loop_spec (m : gmap PeerID PinInfo) :
  (∀ p pi, m !! p = Some pi →
     peer_IDB58Decode (peer_IDB58Encode p) = (p, None) ∧
     ToPinInfo (PinInfo_ToSerial pi) = go_ret pi) →
  ∀ (entries : list (string * PinInfoSerial)) (acc : gmap PeerID PinInfo),
    (∀ k sv, (k, sv) ∈ entries →
       ∃ p pi, m !! p = Some pi ∧ k = peer_IDB58Encode p ∧
               sv = PinInfo_ToSerial pi) →
    ∃ res,
      ToGlobalPinInfo_loop entries acc = go_ret res ∧
      ∀ q, res !! q
           = match m !! q with
             | Some pi =>
                 if decide (peer_IDB58Encode q ∈ entries.*1) then Some pi
                 else acc !! q
             | None => acc !! q
             end.
Proof.
  intros Hgood. induction entries as [|[k sv] rest IH]; intros acc Hfrom.
  - exists acc. split; [done|]. intros q.
    destruct (m !! q); [|done]. destruct (decide _) as [Hin|]; [|done].
    by apply elem_of_nil in Hin.
  - destruct (Hfrom k sv (list_elem_of_here _ _)) as (p & pi & Hp & -> & ->).
    destruct (Hgood p pi Hp) as [Hdec Hinfo].
    destruct (IH (<[p := pi]> acc)) as (res & Hres & Hlook).
    { intros k' sv' Hin. apply Hfrom. by apply list_elem_of_further. }
    exists res. split.
    + cbn [ToGlobalPinInfo_loop]. rewrite Hdec. cbn [log_if_err].
      by rewrite go_ret_bind, Hinfo, go_ret_bind.
    + intros q. rewrite Hlook. rewrite fmap_cons. cbn [fst].
      destruct (m !! q) as [pi'|] eqn:Hq.
      * destruct (decide (peer_IDB58Encode q ∈ rest.*1)) as [Hin|Hout].
        { rewrite decide_True; [done|]. by apply list_elem_of_further. }
        destruct (decide (p = q)) as [->|Hne].
        -- rewrite lookup_insert_eq, decide_True by apply list_elem_of_here.
           congruence.
        -- rewrite lookup_insert_ne by done. rewrite decide_False; [done|].
           intros Hin. apply elem_of_cons in Hin as [Henc|Hin]; [|done].
           apply Hne. destruct (Hgood q pi' Hq) as [Hdq _].
           rewrite Henc, Hdec in Hdq. by injection Hdq.
      * rewrite lookup_insert_ne; [done|]. intros ->. congruence.
Qed.

(** X28. A [GlobalPinInfo] with a non-nil CID that decodes from its
    string and at least one entry in its map (so that the map is not nil),
    whose peers decode from their encodings and whose pin infos each come
    back from their serial form, is given back, with nothing logged, by
    [ToSerial] followed by [ToGlobalPinInfo], in whatever order the two
    maps are ranged over. *)
Theorem ToGlobalPinInfo_ToSerial_roundtrip (gpi : GlobalPinInfo) :
  GlobalPinInfo_Cid gpi ≠ None →
  cid_Decode (cid_String (GlobalPinInfo_Cid gpi))
  = (GlobalPinInfo_Cid gpi, None) →
  GlobalPinInfo_PeerMap gpi ≠ ∅ →
  (∀ p pi, GlobalPinInfo_PeerMap gpi !! p = Some pi →
     peer_IDB58Decode (peer_IDB58Encode p) = (p, None) ∧
     ToPinInfo (PinInfo_ToSerial pi) = go_ret pi) →
  ToGlobalPinInfo (GlobalPinInfo_ToSerial gpi) = go_ret gpi.
Proof.
  intros Hc Hcid _ Hgood. destruct gpi as [c m]. simpl in *.
  unfold ToGlobalPinInfo, GlobalPinInfo_ToSerial. simpl.
  destruct c as [c|]; [|done]. rewrite Hcid. cbn [log_if_err].
  rewrite go_ret_bind.
  set (sm := GlobalPinInfo_ToSerial_loop (range_entries m) ∅).
  assert (Hperm : range_entries m ≡ₚ map_to_list m)
    by apply range_entries_perm.
  assert (Hnd : NoDup (range_entries m).*1).
  { rewrite Hperm. apply NoDup_fst_map_to_list. }
  assert (Hkeys : ∀ q, q ∈ (range_entries m).*1 → is_Some (m !! q)).
  { intros q Hq. rewrite Hperm in Hq.
    apply list_elem_of_fmap in Hq as ([q' v] & -> & Hq).
    apply elem_of_map_to_list in Hq. by eexists. }
  assert (Hinj : ∀ p q, is_Some (m !! p) → is_Some (m !! q) →
                        peer_IDB58Encode p = peer_IDB58Encode q → p = q).
  { intros p q [v Hp] [w Hq] Henc.
    destruct (Hgood p v Hp) as [Hdp _], (Hgood q w Hq) as [Hdq _].
    rewrite Henc, Hdq in Hdp. by injection Hdp. }
  assert (Hsm : ∀ p v, m !! p = Some v →
                       sm !! peer_IDB58Encode p = Some (PinInfo_ToSerial v)).
  { intros p v Hp. unfold sm.
    rewrite GlobalPinInfo_ToSerial_loop_lookup; [|done|].
    - assert (Hl : list_to_map (M := gmap PeerID PinInfo) (range_entries m) !! p
                   = Some v).
      { apply elem_of_list_to_map_1; [done|].
        rewrite Hperm. by apply elem_of_map_to_list. }
      by rewrite Hl.
    - intros q Hq Henc. apply Hinj; [by apply Hkeys|by eexists|done]. }
  destruct (ToGlobalPinInfo_loop_spec m Hgood (range_entries sm) ∅)
    as (res & Hres & Hlook).
  { intros k sv Hin. rewrite (range_entries_perm sm) in Hin.
    apply elem_of_map_to_list in Hin.
    assert (Hk : is_Some (sm !! k)) by (by eexists).
    apply GlobalPinInfo_ToSerial_loop_keys in Hk as [Hempty|(q & Hq & ->)].
    - rewrite lookup_empty in Hempty. by destruct Hempty.
    - destruct (Hkeys q Hq) as [v Hv]. exists q, v.
      split; [done|]. split; [done|].
      rewrite (Hsm q v Hv) in Hin. by injection Hin. }
  rewrite Hres, go_ret_bind. do 2 f_equal. f_equal.
  apply map_eq. intros q. rewrite Hlook.
  destruct (m !! q) as [pi|] eqn:Hq; [|done].
  rewrite decide_True; [done|].
  apply list_elem_of_fmap. exists (peer_IDB58Encode q, PinInfo_ToSerial pi).
  split; [done|]. rewrite (range_entries_perm sm).
  apply elem_of_map_to_list. by apply Hsm.
Qed.

End identity_facts.

(* ===================================================================== *)
(** * The further properties at concrete inputs *)
(* ===================================================================== *)

Section further_calls.
Import api ipfscluster notions fixtures status convert samples identity.

Lemma TrackerStatus_String_FromString_witness :
  TrackerStatusFromString (H := entry_order_rev)
    (TrackerStatus_String TrackerStatusPinned) = TrackerStatusPinned ∧
  TrackerStatus_String 42 = "" ∧
  TrackerStatusFromString (H := entry_order_rev) (TrackerStatus_String 42)
  = TrackerStatusBug.
Proof.
  split.
  - apply (proj1 (TrackerStatus_String_FromString (O := entry_order_rev)
                    TrackerStatusPinned)).
    unfold TrackerStatusPinned. lia.
  - apply (proj2 (TrackerStatus_String_FromString (O := entry_order_rev) 42)).
    lia.
Defined.

Lemma TrackerStatusFromString_String_witness :
  TrackerStatusFromString (H := entry_order) "nonsense" = TrackerStatusBug.
Proof.
  apply (proj1 (proj2 (TrackerStatusFromString_String (O := entry_order)
                         "nonsense"))).
  intros st Hst. apply elem_of_list_to_map_2, list_elem_of_In in Hst.
  simpl in Hst. repeat (destruct Hst as [Hst|Hst]; [discriminate|]). done.
Defined.

Lemma StringsToPeers_keeps_every_entry_witness :
  ∃ peers,
    returned (StringsToPeers (L := strict_libs) ["P1"; ""; "P2"]) = Some peers ∧
    length peers = 3%nat ∧
    peers !! 1%nat = Some "" ∧
    logged (StringsToPeers (L := strict_libs) ["P1"; ""; "P2"])
    = [mkLog ERROR None [AStr ""; AErr (errors_New "empty peer ID")]].
Proof.
  destruct (StringsToPeers_keeps_every_entry (L := strict_libs)
              ["P1"; ""; "P2"]) as (peers & Hret & Hlen & Hat & Hlog).
  exists peers. split; [exact Hret|]. split; [exact Hlen|].
  split; [|exact Hlog]. apply (Hat 1%nat ""). reflexivity.
Defined.

Lemma ToPin_ToSerial_roundtrip_witness :
  ToPin (L := libs)
    (Pin_ToSerial (E := codecs) (mkPin QmC "backup" ["P1"; "P2"] 2))
  = go_ret (mkPin QmC "backup" ["P1"; "P2"] 2).
Proof.
  apply (ToPin_ToSerial_roundtrip (L := libs) (E := codecs)
           (mkPin QmC "backup" ["P1"; "P2"] 2)).
  - discriminate.
  - reflexivity.
  - discriminate.
  - repeat constructor; discriminate.
Defined.

Lemma ToPinInfo_ToSerial_status_witness :
  ∃ pi',
    returned (ToPinInfo (L := libs) (E := codecs) (O := entry_order)
                (PinInfo_ToSerial (E := codecs)
                   (mkPinInfo QmC "P1" TrackerStatusPinning noon "")))
    = Some pi' ∧
    PinInfo_Status pi' = TrackerStatusPinning.
Proof.
  destruct (ToPinInfo_ToSerial_status (L := libs) (E := codecs)
              (O := entry_order)
              (mkPinInfo QmC "P1" TrackerStatusPinning noon ""))
    as (pi' & Hret & _ & Hknown & _).
  exists pi'. split; [exact Hret|]. apply Hknown.
  simpl. unfold TrackerStatusPinning. lia.
Defined.

Lemma GlobalPinInfo_ToSerial_entries_witness :
  (∀ p v, GlobalPinInfo_PeerMap sample_gpi2 !! p = Some v →
          GlobalPinInfoSerial_PeerMap
            (GlobalPinInfo_ToSerial (E := codecs) (O := entry_order_rev)
               sample_gpi2)
            !! peer_IDB58Encode (Codecs := codecs) p
          = Some (PinInfo_ToSerial (E := codecs) v)) ∧
  (∀ s, is_Some (GlobalPinInfoSerial_PeerMap
                   (GlobalPinInfo_ToSerial (E := codecs) (O := entry_order_rev)
                      sample_gpi2) !! s) →
        ∃ p, is_Some (GlobalPinInfo_PeerMap sample_gpi2 !! p) ∧
             s = peer_IDB58Encode (Codecs := codecs) p).
Proof.
  apply (GlobalPinInfo_ToSerial_entries (E := codecs) (O := entry_order_rev)
           sample_gpi2).
  intros p q _ _ Henc. exact Henc.
Defined.

Lemma SetTTLDuration_then_Expired_witness :
  returned (Expired (L := libs) one_pm
              (SetTTLDuration (E := codecs) noon (usable "P1") (3600 * 10 ^ 9)))
  = Some (bool_decide (noon + 3600 * 10 ^ 9 < one_pm)).
Proof.
  apply (SetTTLDuration_then_Expired (L := libs) (E := codecs)
           (usable "P1") noon (3600 * 10 ^ 9) one_pm).
  - discriminate.
  - reflexivity.
Defined.

Lemma SetTTLDuration_then_GetTTL_witness :
  returned (GetTTL (L := libs) noon
              (SetTTLDuration (E := codecs) noon (usable "P1") (3600 * 10 ^ 9)))
  = Some (3600 * 10 ^ 9 - (noon - noon)).
Proof.
  apply (SetTTLDuration_then_GetTTL (L := libs) (E := codecs)
           (usable "P1") noon (3600 * 10 ^ 9) noon).
  - discriminate.
  - reflexivity.
  - unfold is_int, int_min, int_max, noon. lia.
Defined.

Lemma SetTTL_whole_seconds_witness :
  SetTTL (E := codecs) noon (usable "P1") 3600
  = SetTTLDuration (E := codecs) noon (usable "P1") (3600 * 10 ^ 9).
Proof.
  apply (SetTTL_whole_seconds (E := codecs) (usable "P1") noon 3600). lia.
Defined.

(** Beyond 9223372036 seconds the product wraps to a negative duration. *)
Example SetTTL_wraps :
  SetTTL (E := codecs) noon (usable "P1") 9223372037
  = SetTTLDuration (E := codecs) noon (usable "P1") (-9223372036709551616).
Proof. reflexivity. Qed.

Lemma Expired_iff_negative_GetTTL_witness :
  (returned (Expired (L := libs) one_pm (stale "P1")) = Some true ↔
   ∃ d, returned (GetTTL (L := libs) one_pm (stale "P1")) = Some d ∧ d < 0) ∧
  (returned (Expired (L := libs) noon (stale "P1")) = Some false ∧
   returned (GetTTL (L := libs) noon (stale "P1")) = Some 0).
Proof.
  split.
  - apply (proj1 (Expired_iff_negative_GetTTL (L := libs) one_pm (stale "P1"))).
    discriminate.
  - apply (proj2 (proj2 (proj2
             (Expired_iff_negative_GetTTL (L := libs) noon (stale "P1")))));
      [discriminate|reflexivity].
Defined.

Lemma Discard_false_iff_witness :
  Discard (L := libs) noon (invalid "P1") = go_ret true.
Proof.
  apply (proj1 (proj2 (Discard_false_iff (L := libs) noon (invalid "P1")))).
  reflexivity.
Defined.

Lemma partition_exact_witness :
  (is_Some (S2_current !! "P2") ↔
   "P2" ∈ getCurrentAllocations S2 QmC ∧ ("P2" ∉ []) ∧
   has_usable_metric (L := libs) half_past S2_metrics "P2") ∧
  (is_Some (S2_candidates !! "P2") ↔
   ("P2" ∉ getCurrentAllocations S2 QmC) ∧ ("P2" ∉ []) ∧
   has_usable_metric (L := libs) half_past S2_metrics "P2") ∧
  ¬ (is_Some (S2_current !! "P2") ∧ is_Some (S2_candidates !! "P2")).
Proof.
  apply (partition_exact (L := libs) S2 half_past QmC [] S2_metrics
           S2_current S2_candidates "P2").
  vm_compute. reflexivity.
Defined.

Lemma partition_without_state_witness :
  getCurrentAllocations (without_state S2 (errors_New "no state")) QmC = [] ∧
  (∅ : gmap PeerID Metric) = ∅ ∧
  ∀ p, is_Some ((list_to_map [("P1", usable "P1"); ("P3", usable "P3");
                              ("P4", usable "P4"); ("P5", usable "P5")]
                   : gmap PeerID Metric) !! p) ↔
       (p ∉ ["P9"]) ∧ has_usable_metric (L := libs) half_past S2_metrics p.
Proof.
  apply (partition_without_state (L := libs)
           (without_state S2 (errors_New "no state")) half_past QmC ["P9"]
           S2_metrics ∅ _ (errors_New "no state")).
  - reflexivity.
  - vm_compute. reflexivity.
Defined.

Lemma allocate_monitor_error_witness :
  run (with_failing_monitor S1 (errors_New "dial backoff")) QmC 2 3 []
  = go_ret (None, Some (errors_New "dial backoff")).
Proof.
  apply (allocate_monitor_error (L := libs) (R := key_order) (H := helpers)
           (with_failing_monitor S1 (errors_New "dial backoff"))
           half_past QmC 2 3 [] "P1" (errors_New "dial backoff"));
    reflexivity.
Defined.

Lemma allocate_nil_only_within_bounds_witness :
  returned (run S3 QmC 2 4 []) = Some (None, None) ∧
  2 ≤ Z.of_nat (size S3_current) ≤ 4.
Proof.
  split; [vm_compute; reflexivity|].
  apply (allocate_nil_only_within_bounds (L := libs) (R := key_order)
           (H := helpers) S3 half_past QmC 2 4 [] S3_metrics S3_current ∅).
  - reflexivity.
  - unfold len, int_max. simpl. lia.
  - unfold valid_factors, int_max. lia.
  - vm_compute. reflexivity.
  - vm_compute. reflexivity.
Defined.

Lemma allocate_shrinks_witness :
  ∃ A,
    returned (run S4 QmC 1 2 []) = Some (Some A, None) ∧
    len A = 2 ∧
    A `prefix_of` range_keys (MapRange := key_order) S4_current ∧
    NoDup A ∧
    ∀ p, p ∈ A → is_Some (S4_current !! p) ∧ p ∈ getCurrentAllocations S4 QmC.
Proof.
  apply (allocate_shrinks (L := libs) (R := key_order) (H := helpers)
           S4 half_past QmC 1 2 [] S4_metrics S4_current ∅).
  - reflexivity.
  - unfold len, int_max. simpl. lia.
  - unfold valid_factors, int_max. lia.
  - vm_compute. reflexivity.
  - vm_compute. reflexivity.
Defined.

Lemma allocate_peers_provenance_witness :
  ("P4" ∈ getCurrentAllocations S2 QmC ∧
   has_usable_metric (L := libs) half_past S2_metrics "P4") ∨
  (∃ cur cand ranked,
     partition (L := libs) S2 half_past QmC [] S2_metrics = Some (cur, cand) ∧
     allocator_Allocate S2 QmC cur cand = Ok ranked ∧ "P4" ∈ ranked).
Proof.
  apply (allocate_peers_provenance (L := libs) (R := key_order) (H := helpers)
           S2 half_past QmC 3 3 [] S2_metrics ["P1"; "P4"; "P3"] None "P4").
  - reflexivity.
  - vm_compute. reflexivity.
  - apply list_elem_of_further, list_elem_of_here.
Defined.

Lemma choosy_cluster_ranks_each_once (current : list PeerID)
    (metrics : list Metric) (preference : list PeerID) :
  NoDup preference →
  ∀ h cur candidates ranked,
    allocator_Allocate (choosy_cluster current metrics preference)
      h cur candidates = Ok ranked →
    NoDup ranked.
Proof.
  intros Hnd h cur candidates ranked [= <-].
  unfold by_preference. by apply NoDup_filter.
Defined.

Lemma allocate_no_duplicates_witness :
  returned (run (choosy_cluster ["P1"] S3_metrics ["P3"; "P2"; "P1"]) QmC 2 3 [])
  = Some (Some ["P1"; "P3"; "P2"], None) ∧
  NoDup ["P1"; "P3"; "P2"].
Proof.
  split; [vm_compute; reflexivity|].
  apply (allocate_no_duplicates (L := libs) (R := key_order) (H := helpers)
           (choosy_cluster ["P1"] S3_metrics ["P3"; "P2"; "P1"])
           half_past QmC 2 3 [] S3_metrics ["P1"; "P3"; "P2"] None).
  - apply choosy_cluster_ranks_candidates_only.
  - apply choosy_cluster_ranks_each_once.
    apply (bool_decide_unpack _). vm_compute. exact I.
  - reflexivity.
  - vm_compute. reflexivity.
Defined.

Lemma allocate_returns_witness :
  is_Some (returned (run S2 QmC 3 3 [])).
Proof.
  apply (allocate_returns (L := libs) (R := key_order) (H := helpers)
           S2 half_past QmC 3 3 []).
  - unfold valid_factors, int_max. lia.
  - intros metrics [= <-]. split.
    + unfold len, int_max. simpl. lia.
    + repeat constructor; intros _ _; by eexists.
  - intros msg. by eexists.
Defined.

Lemma allocate_panics_on_malformed_expiry_witness :
  returned (run (cluster [] [usable "P1"; usable "P2";
                             mkMetric "freespace" "P9" "1" "tomorrow" true]
                   ["P1"; "P2"]) QmC 1 2 ["P9"])
  = None.
Proof.
  apply (allocate_panics_on_malformed_expiry
           (L := libs) (R := key_order) (H := helpers)
           (cluster [] [usable "P1"; usable "P2";
                        mkMetric "freespace" "P9" "1" "tomorrow" true]
              ["P1"; "P2"])
           half_past QmC 1 2 ["P9"]
           [usable "P1"; usable "P2";
            mkMetric "freespace" "P9" "1" "tomorrow" true]
           (mkMetric "freespace" "P9" "1" "tomorrow" true)).
  - reflexivity.
  - do 2 apply list_elem_of_further. apply list_elem_of_here.
  - reflexivity.
  - discriminate.
  - reflexivity.
Defined.

Lemma allocate_ignores_allocator_witness :
  allocate (L := libs) (R := key_order) (H := helpers)
    (with_allocator S3 (λ _ _ _, Err (errors_New "no space left")))
    half_past QmC 2 4 []
  = run S3 QmC 2 4 [].
Proof.
  apply (allocate_ignores_allocator (L := libs) (R := key_order) (H := helpers)
           S3 half_past QmC 2 4 [] S3_metrics S3_current ∅
           (λ _ _ _, Err (errors_New "no space left"))).
  - reflexivity.
  - unfold len, int_max. simpl. lia.
  - unfold valid_factors, int_max. lia.
  - vm_compute. reflexivity.
  - left. vm_compute. discriminate.
Defined.

Lemma allocate_panics_on_negative_rplMax_witness :
  returned (run S1 QmC (-1) (-1) []) = None.
Proof.
  apply (allocate_panics_on_negative_rplMax
           (L := libs) (R := key_order) (H := helpers)
           S1 half_past QmC (-1) (-1) [] five_usable).
  - reflexivity.
  - lia.
  - unfold len, int_min. simpl. lia.
Defined.

Lemma undecodable_ID_witness :
  (∃ id, returned (ToIPFSID (L := strict_libs) (M := plain_multiaddrs)
                     sample_ipfs_serial)
         = Some id ∧ IPFSID_ID id = "" ∧
         logged (ToIPFSID (L := strict_libs) (M := plain_multiaddrs)
                   sample_ipfs_serial)
         = logged (ToMultiaddrs (M := plain_multiaddrs)
                     (IPFSIDSerial_Addresses sample_ipfs_serial))) ∧
  (∃ id, returned (ToID (L := strict_libs) (M := plain_multiaddrs)
                     sample_id_serial)
         = Some id ∧ ID_ID id = "" ∧
         head (logged (ToID (L := strict_libs) (M := plain_multiaddrs)
                         sample_id_serial))
         = Some (mkLog ERROR None
                   [AStr (IDSerial_ID sample_id_serial);
                    AErr (errors_New "empty peer ID")])).
Proof.
  apply (undecodable_ID (L := strict_libs) (M := plain_multiaddrs)
           sample_ipfs_serial sample_id_serial
           "" "" (errors_New "empty peer ID") (errors_New "empty peer ID"));
    reflexivity.
Defined.

Lemma ToID_ToSerial_roundtrip_witness :
  ToID (L := strict_libs) (M := plain_multiaddrs)
    (ID_ToSerial (E := codecs) (M := plain_multiaddrs) sample_id)
  = go_ret sample_id.
Proof.
  apply (ToID_ToSerial_roundtrip (L := strict_libs) (E := codecs)
           (M := plain_multiaddrs) sample_id).
  - discriminate.
  - reflexivity.
  - discriminate.
  - discriminate.
  - discriminate.
  - discriminate.
  - repeat constructor; discriminate.
  - repeat constructor; discriminate.
  - left. discriminate.
Defined.

Lemma ToPinInfo_ToSerial_roundtrip_witness :
  ToPinInfo (L := libs) (E := codecs) (O := entry_order_rev)
    (PinInfo_ToSerial (E := codecs)
       (mkPinInfo QmC "P1" TrackerStatusPinError noon "disk full"))
  = go_ret (mkPinInfo QmC "P1" TrackerStatusPinError noon "disk full").
Proof.
  apply (ToPinInfo_ToSerial_roundtrip (L := libs) (E := codecs)
           (O := entry_order_rev)
           (mkPinInfo QmC "P1" TrackerStatusPinError noon "disk full")).
  - discriminate.
  - reflexivity.
  - discriminate.
  - reflexivity.
  - reflexivity.
  - simpl. unfold TrackerStatusPinError. lia.
Defined.

Lemma ToGlobalPinInfo_ToSerial_roundtrip_witness :
  ToGlobalPinInfo (L := libs) (E := codecs) (O := entry_order)
    (GlobalPinInfo_ToSerial (E := codecs) (O := entry_order) sample_gpi)
  = go_ret sample_gpi.
Proof.
  apply (ToGlobalPinInfo_ToSerial_roundtrip (L := libs) (E := codecs)
           (O := entry_order) sample_gpi).
  - discriminate.
  - reflexivity.
  - apply (bool_decide_unpack _). vm_compute. exact I.
  - intros p pi Hp. unfold sample_gpi in Hp. cbn [GlobalPinInfo_PeerMap] in Hp.
    apply lookup_singleton_Some in Hp as [<- <-].
    split; vm_compute; reflexivity.
Defined.

End further_calls.
